(** * Utility helpers of the course repository: retry, rate limiting, cost tracking

    A shallow embedding of [src/utils/api_helpers.py] and
    [src/utils/cost_tracker.py].

    Conventions of the embedding.
    - Python [float] values (delays, timestamps, prices, costs) are exact
      rationals [Q]; arithmetic results are compared with [==].
    - Python [int] values are [Z].
    - Effects are explicit: every function takes the state it reads and
      returns the state it leaves, together with its normal result or the
      exception it raises.
    - Library calls are modelled by their documented contract:
      [random.random()] yields a value of the half-open unit interval,
      [time.time()] reads a clock that never runs backwards,
      [time.sleep(d)] suspends for [d] and raises [ValueError] on a negative
      [d], [asyncio.sleep(d)] accepts every [d].
    - The built-in [round] is not computed: a report holds the call
      [round(total_cost, 4)] as it is written. *)

From Stdlib Require Import QArith ZArith List String Ascii Bool Lia Lqa Qminmax.
Import ListNotations.
Open Scope Q_scope.

(** Strict comparison on rationals, as a boolean. *)
Definition Qltb (x y : Q) : bool := negb (Qle_bool y x).

(** ** [retry_with_backoff] and [async_retry_with_backoff] *)

Module Retry.

(** The two decorators differ only in how they suspend. *)
Inductive flavour := Threaded | Cooperative.

Section Wrapper.
(** Result type of the wrapped function and the exceptions it can raise. *)
Variables A E : Type.

(** What one invocation of the wrapped function does. *)
Inductive outcome :=
| Returns (v : A)
| Raises (e : E).

Record config := {
  max_retries : Z;
  initial_delay : Q;
  max_delay : Q;
  exponential_base : Q;
  jitter : bool;
  (** [isinstance] test against the [retryable_exceptions] tuple *)
  retryable_exceptions : E -> bool
}.

Inductive event :=
| LogError (retries : Z)
| LogWarning (attempt : Z) (e : E) (actual_delay : Q).

(** Everything the wrapper touches outside its own locals. *)
Record world := {
  invocations : nat;      (* completed invocations of [func] *)
  draws : nat;            (* values taken from [random.random()] *)
  slept : list Q;         (* durations slept so far, oldest first *)
  logged : list event     (* records sent to [logger], oldest first *)
}.

Inductive result :=
| Returned (v : A)
| ReturnedNone                (* the [for] loop ended without [return] or [raise] *)
| Raised (e : E)              (* an exception of [func] leaves the wrapper *)
| RaisedValueError.           (* [time.sleep] refused a negative duration *)

(** The environment of a run: the flavour of the decorator, the outcome
    of the i-th invocation of [func] (counting from 0) and the i-th
    value of [random.random()]. *)
Variable fl : flavour.
Variable func : nat -> outcome.
Variable random : nat -> Q.
Variable cfg : config.

Definition invoke (w : world) : outcome * world :=
  (func (invocations w),
   {| invocations := S (invocations w); draws := draws w;
      slept := slept w; logged := logged w |}).

Definition random_random (w : world) : Q * world :=
  (random (draws w),
   {| invocations := invocations w; draws := S (draws w);
      slept := slept w; logged := logged w |}).

Definition log (ev : event) (w : world) : world :=
  {| invocations := invocations w; draws := draws w;
     slept := slept w; logged := logged w ++ [ev] |}.

(** [time.sleep(d)] in the threaded decorator, which raises
    [ValueError] on a negative [d]; [await asyncio.sleep(d)] in the other,
    which accepts every [d]. *)
Definition sleep (d : Q) (w : world) : option world :=
  let w' := {| invocations := invocations w; draws := draws w;
               slept := slept w ++ [d]; logged := logged w |} in
  match fl with
  | Threaded => if Qltb d 0 then None else Some w'
  | Cooperative => Some w'
  end.

(** [delay * (0.5 + random.random())] *)
Definition jittered (delay u : Q) : Q := delay * (0.5 + u).

(** The body of [for attempt in range(max_retries + 1)], with [n]
    iterations left, loop variable [attempt] and local [delay]. *)
Fixpoint attempts (n : nat) (attempt : Z) (delay : Q) (w : world)
  : result * world :=
  match n with
  | O => (ReturnedNone, w)
  | S n' =>
      let '(o, w1) := invoke w in
      match o with
      | Returns v => (Returned v, w1)
      | Raises e =>
          if negb (retryable_exceptions cfg e) then (Raised e, w1)
          else if (attempt =? max_retries cfg)%Z then
            (Raised e, log (LogError (max_retries cfg)) w1)
          else
            let '(actual_delay, w2) :=
              if jitter cfg then
                let '(u, w2) := random_random w1 in (jittered delay u, w2)
              else (delay, w1) in
            let actual_delay := Qmin actual_delay (max_delay cfg) in
            let w3 := log (LogWarning attempt e actual_delay) w2 in
            match sleep actual_delay w3 with
            | None => (RaisedValueError, w3)
            | Some w4 =>
                attempts n' (attempt + 1)%Z (delay * exponential_base cfg) w4
            end
      end
  end.

(** The decorated function, called once. *)
Definition wrapper (w : world) : result * world :=
  attempts (Z.to_nat (max_retries cfg + 1)) 0%Z (initial_delay cfg) w.

(** Value of the local [delay] after [k] executions of
    [delay *= exponential_base], starting from [d]. *)
Fixpoint grow (d : Q) (k : nat) : Q :=
  match k with
  | O => d
  | S k' => grow (d * exponential_base cfg) k'
  end.

(** Nominal (pre-jitter) delay before the retry that follows failed
    attempt number [k] (counting from 0). *)
Definition nominal_delay (k : nat) : Q := grow (initial_delay cfg) k.

(** Contract of [random.random()]. *)
Definition random_unit : Prop := forall i, 0 <= random i /\ random i < 1.

(** The threaded decorator hands its delays to [time.sleep], which
    wants them non-negative. *)
Definition sleeps_ok : Prop :=
  fl = Threaded ->
  0 <= initial_delay cfg /\ 0 <= exponential_base cfg /\ 0 <= max_delay cfg.

(** Invocations number [from], ..., [from + k - 1] of [func] raise
    exceptions of the retryable classes. *)
Definition fails_retryably (from k : nat) : Prop :=
  forall i, (i < k)%nat ->
    exists e, func (from + i) = Raises e /\ retryable_exceptions cfg e = true.

(** The duration slept after a failure met with local [delay], the
    random source having been used [d] times. *)
Definition actual (delay : Q) (d : nat) : Q :=
  Qmin (if jitter cfg then jittered delay (random d) else delay) (max_delay cfg).

(** The world of a failed attempt when its warning has been logged and
    the wrapper is about to sleep. *)
Definition warned (attempt : Z) (e : E) (delay : Q) (w : world) : world :=
  {| invocations := S (invocations w);
     draws := if jitter cfg then S (draws w) else draws w;
     slept := slept w;
     logged := logged w ++ [LogWarning attempt e (actual delay (draws w))] |}.

(** The world after one failed attempt that is followed by a retry. *)
Definition retried (attempt : Z) (e : E) (delay : Q) (w : world) : world :=
  {| invocations := S (invocations w);
     draws := if jitter cfg then S (draws w) else draws w;
     slept := slept w ++ [actual delay (draws w)];
     logged := logged w ++ [LogWarning attempt e (actual delay (draws w))] |}.

(** The delays slept over [k] failed attempts in a row, each followed
    by a retry. *)
Fixpoint sleeps_from (k : nat) (delay : Q) (d : nat) : list Q :=
  match k with
  | O => []
  | S k' =>
      actual delay d
        :: sleeps_from k' (delay * exponential_base cfg)
             (if jitter cfg then S d else d)
  end.

End Wrapper.

Arguments Returns {A E} v.
Arguments Raises {A E} e.
Arguments Returned {A E} v.
Arguments ReturnedNone {A E}.
Arguments Raised {A E} e.
Arguments RaisedValueError {A E}.
Arguments LogError {E} retries.
Arguments LogWarning {E} attempt e actual_delay.
Arguments invocations {E} w.
Arguments draws {E} w.
Arguments slept {E} w.
Arguments logged {E} w.
Arguments max_retries {E} c.
Arguments initial_delay {E} c.
Arguments max_delay {E} c.
Arguments exponential_base {E} c.
Arguments jitter {E} c.
Arguments retryable_exceptions {E} c e.
Arguments wrapper {A E} fl func random cfg w.
Arguments attempts {A E} fl func random cfg n attempt delay w.
Arguments nominal_delay {E} cfg k.
Arguments grow {E} cfg d k.
Arguments sleeps_ok {E} fl cfg.
Arguments fails_retryably {A E} func cfg from k.
Arguments actual {E} random cfg delay d.
Arguments retried {E} random cfg attempt e delay w.
Arguments warned {E} random cfg attempt e delay w.
Arguments sleeps_from {E} random cfg k delay d.
Arguments sleep {E} fl d w.
Arguments invoke {A E} func w.
Arguments log {E} ev w.
Arguments random_random {E} random w.

(** [retry_with_backoff(...)(func)] and
    [async_retry_with_backoff(...)(func)], called once. *)
Definition retry_with_backoff {A E} (cfg : config E) (func : nat -> outcome A E)
  (random : nat -> Q) (w : world E) : result A E * world E :=
  wrapper Threaded func random cfg w.

Definition async_retry_with_backoff {A E} (cfg : config E)
  (func : nat -> outcome A E) (random : nat -> Q) (w : world E)
  : result A E * world E :=
  wrapper Cooperative func random cfg w.

(** A fresh process: nothing invoked, drawn, slept or logged. *)
Definition start {E} : world E :=
  {| invocations := 0; draws := 0; slept := []; logged := [] |}.

(** A list of rationals that never decreases from one element to the next. *)
Fixpoint nondecreasing (l : list Q) : Prop :=
  match l with
  | [] => True
  | x :: l' => match l' with [] => True | y :: _ => x <= y end /\ nondecreasing l'
  end.

End Retry.

(** ** The clock read by [time.time()] and advanced by sleeping *)

Module Clock.

(** [now] is the last reading and [reads] counts the calls of
    [time.time()] so far; [elapse i] is the time that passes before call
    number [i] (beyond any sleep): any schedule of calls is a choice of
    [elapse]. *)
Record world := {
  now : Q;
  reads : nat;
  elapse : nat -> Q
}.

Definition time_time (w : world) : Q * world :=
  let t := now w + elapse w (reads w) in
  (t, {| now := t; reads := S (reads w); elapse := elapse w |}).

Definition time_sleep (d : Q) (w : world) : world :=
  {| now := now w + d; reads := reads w; elapse := elapse w |}.

(** The clock never runs backwards. *)
Definition monotone (w : world) : Prop := forall i, 0 <= elapse w i.

(** No two readings of the clock are equal. *)
Definition advancing (w : world) : Prop := forall i, 0 < elapse w i.

(** A clock started at 0 whose first readings are spaced as listed, the
    later ones by [later]. *)
Definition starting (gaps : list Q) (later : Q) : world :=
  {| now := 0; reads := 0; elapse := fun i => nth i gaps later |}.

End Clock.

(** ** [RateLimiter] *)

Module RateLimiter.
Import Clock.

Record t := {
  max_requests : Z;
  time_window : Q;
  requests : list Q        (* the deque, oldest timestamp first *)
}.

Definition init (max_requests : Z) (time_window : Q) : t :=
  {| max_requests := max_requests; time_window := time_window; requests := [] |}.

Definition with_requests (self : t) (reqs : list Q) : t :=
  {| max_requests := max_requests self; time_window := time_window self;
     requests := reqs |}.

Inductive result :=
| ReturnedNone
| RaisedIndexError.        (* [self.requests[0]] on an empty deque *)

(** [while self.requests and self.requests[0] < bound: self.requests.popleft()] *)
Fixpoint popleft_while (bound : Q) (reqs : list Q) : list Q :=
  match reqs with
  | [] => []
  | r :: rs => if Qltb r bound then popleft_while bound rs else reqs
  end.

(** [self.requests.append(time.time())] *)
Definition record (self : t) (w : world) : t * world :=
  let '(stamp, w') := time_time w in
  (with_requests self (requests self ++ [stamp]), w').

(** [acquire]; [fuel] bounds the depth of the recursion
    [return self.acquire()], [None] means the bound was reached. *)
Fixpoint acquire (fuel : nat) (self : t) (w : world)
  : option (result * t * world) :=
  match fuel with
  | O => None
  | S fuel' =>
      let '(now, w1) := time_time w in
      let self1 :=
        with_requests self (popleft_while (now - time_window self) (requests self)) in
      if (max_requests self1 <=? Z.of_nat (List.length (requests self1)))%Z then
        match requests self1 with
        | [] => Some (RaisedIndexError, self1, w1)
        | oldest_request :: _ =>
            let wait_time := time_window self1 - (now - oldest_request) in
            if Qltb 0 wait_time then
              acquire fuel' self1 (time_sleep wait_time w1)
            else
              let '(self2, w2) := record self1 w1 in
              Some (ReturnedNone, self2, w2)
        end
      else
        let '(self2, w2) := record self1 w1 in
        Some (ReturnedNone, self2, w2)
  end.

(** Fuel that is always enough (see [acquire_total]). *)
Definition enough (self : t) : nat := S (S (List.length (requests self))).

(** [k] calls of [acquire], one after the other, by a single caller. *)
Fixpoint acquire_many (k : nat) (self : t) (w : world) : option (t * world) :=
  match k with
  | O => Some (self, w)
  | S k' =>
      match acquire (enough self) self w with
      | Some (ReturnedNone, self', w') => acquire_many k' self' w'
      | _ => None
      end
  end.

(** Recorded timestamps lying in the trailing interval of length [W]
    that ends at [t], the far end excluded: [t - W < r <= t]. *)
Definition in_window (W t : Q) (reqs : list Q) : list Q :=
  filter (fun r => Qltb (t - W) r && Qle_bool r t) reqs.

(** Recorded timestamps lying in the trailing interval of length [W]
    that ends at [t], both ends included. *)
Definition in_closed_window (W t : Q) (stamps : list Q) : list Q :=
  filter (fun r => Qle_bool (t - W) r && Qle_bool r t) stamps.

(** [k] calls one after the other, with the list of every timestamp
    recorded, oldest first. *)
Fixpoint acquire_logged (k : nat) (self : t) (w : world) (stamps : list Q)
  : option (t * world * list Q) :=
  match k with
  | O => Some (self, w, stamps)
  | S k' =>
      match acquire (enough self) self w with
      | Some (ReturnedNone, self', w') =>
          acquire_logged k' self' w' (stamps ++ [last (requests self') 0])
      | _ => None
      end
  end.

(** Any two timestamps that are [n] or more places apart in the list
    are more than [W] apart in time. *)
Definition spaced (n : nat) (W : Q) (stamps : list Q) : Prop :=
  forall i j x y,
    nth_error stamps i = Some x -> nth_error stamps j = Some y ->
    (i + n <= j)%nat -> x + W < y.

(** What holds between two calls when the clock advances: the deque is
    the end of the list of all timestamps, those no longer in it are a
    window old, the timestamps are spaced, and the deque exceeds the
    limit by one at most, its head being a window old when it does. *)
Definition settled (stamps : list Q) (self : t) (w : world) : Prop :=
  (exists dropped,
     stamps = dropped ++ requests self /\
     Forall (fun d => d + time_window self <= now w) dropped) /\
  spaced (Z.to_nat (max_requests self)) (time_window self) stamps /\
  (List.length (requests self) <= S (Z.to_nat (max_requests self)))%nat /\
  ((Z.to_nat (max_requests self) < List.length (requests self))%nat ->
   forall oldest rest,
     requests self = oldest :: rest -> oldest + time_window self <= now w).

(** *** The same method, one statement at a time

    Threads that share a limiter interleave between statements.  A
    thread is at one of the following places of [acquire]. *)
Inductive pc :=
| AtEntry                  (* before [now = time.time()] *)
| AtPrune (now : Q)        (* before the test of the [while] *)
| AtCheck (now : Q)        (* before [if len(self.requests) >= self.max_requests] *)
| AtWait (now : Q)         (* before [oldest_request = self.requests[0]] *)
| AtRecord                 (* before [self.requests.append(time.time())] *)
| Finished
| Crashed.                 (* [IndexError] left the method *)

(** One statement of one thread.  A statement is taken as atomic and a
    sleeping thread as keeping the others from running; real threads
    can be preempted at more places, so every schedule of this machine
    is a behaviour of the program. *)
Definition step (self : t) (w : world) (p : pc) : t * world * pc :=
  match p with
  | AtEntry => let '(now, w1) := time_time w in (self, w1, AtPrune now)
  | AtPrune now =>
      match requests self with
      | r :: rs =>
          if Qltb r (now - time_window self)
          then (with_requests self rs, w, AtPrune now)
          else (self, w, AtCheck now)
      | [] => (self, w, AtCheck now)
      end
  | AtCheck now =>
      if (max_requests self <=? Z.of_nat (List.length (requests self)))%Z
      then (self, w, AtWait now) else (self, w, AtRecord)
  | AtWait now =>
      match requests self with
      | [] => (self, w, Crashed)
      | oldest_request :: _ =>
          let wait_time := time_window self - (now - oldest_request) in
          if Qltb 0 wait_time then (self, time_sleep wait_time w, AtEntry)
          else (self, w, AtRecord)
      end
  | AtRecord => let '(self', w') := record self w in (self', w', Finished)
  | Finished => (self, w, Finished)
  | Crashed => (self, w, Crashed)
  end.

(** A limiter shared by threads, each at its own place. *)
Record system := {
  shared : t;
  clock : world;
  threads : list pc
}.

Fixpoint set_nth (i : nat) (p : pc) (l : list pc) : list pc :=
  match l, i with
  | [], _ => []
  | _ :: l', O => p :: l'
  | q :: l', S i' => q :: set_nth i' p l'
  end.

(** Thread [i] runs its next statement. *)
Definition step_thread (i : nat) (s : system) : system :=
  match nth_error (threads s) i with
  | None => s
  | Some p =>
      let '(self', w', p') := step (shared s) (clock s) p in
      {| shared := self'; clock := w'; threads := set_nth i p' (threads s) |}
  end.

(** A schedule names the thread that runs at each turn. *)
Definition run (schedule : list nat) (s : system) : system :=
  fold_left (fun s i => step_thread i s) schedule s.

(** [k] statements of a single thread. *)
Fixpoint steps (k : nat) (self : t) (w : world) (p : pc) : t * world * pc :=
  match k with
  | O => (self, w, p)
  | S k' => let '(self', w', p') := step self w p in steps k' self' w' p'
  end.

(** A thread running alone gets from one configuration to another. *)
Definition reaches (a b : t * world * pc) : Prop :=
  exists k, let '(self, w, p) := a in steps k self w p = b.

(** Where a thread stands when [acquire] is over. *)
Definition final_pc (r : result) : pc :=
  match r with
  | ReturnedNone => Finished
  | RaisedIndexError => Crashed
  end.

End RateLimiter.

(** ** [AsyncRateLimiter] *)

Module AsyncRateLimiter.
Import Clock.

Record t := {
  max_requests : Z;
  time_window : Q;
  requests : list Q;
  lock : bool              (* [self.lock.locked()] *)
}.

Definition init (max_requests : Z) (time_window : Q) : t :=
  {| max_requests := max_requests; time_window := time_window;
     requests := []; lock := false |}.

Definition with_requests (self : t) (reqs : list Q) : t :=
  {| max_requests := max_requests self; time_window := time_window self;
     requests := reqs; lock := lock self |}.

Definition with_lock (self : t) (b : bool) : t :=
  {| max_requests := max_requests self; time_window := time_window self;
     requests := requests self; lock := b |}.

Inductive result :=
| ReturnedNone
| RaisedIndexError
| Blocked.     (* suspended for ever on [self.lock], which nobody will release *)

Definition record (self : t) (w : world) : t * world :=
  let '(stamp, w') := time_time w in
  (with_requests self (requests self ++ [stamp]), w').

(** [acquire] called by the only task that uses the limiter.
    [async with self.lock] takes the lock when it is free and releases
    it when the block is left; [asyncio.Lock] is not reentrant, so when
    the lock is held the caller is suspended until another task
    releases it. *)
Fixpoint acquire (fuel : nat) (self : t) (w : world)
  : option (result * t * world) :=
  match fuel with
  | O => None
  | S fuel' =>
      if lock self then Some (Blocked, self, w)
      else
        let self0 := with_lock self true in
        let '(now, w1) := time_time w in
        let self1 :=
          with_requests self0
            (RateLimiter.popleft_while (now - time_window self0) (requests self0)) in
        if (max_requests self1 <=? Z.of_nat (List.length (requests self1)))%Z then
          match requests self1 with
          | [] => Some (RaisedIndexError, with_lock self1 false, w1)
          | oldest_request :: _ =>
              let wait_time := time_window self1 - (now - oldest_request) in
              if Qltb 0 wait_time then
                match acquire fuel' self1 (time_sleep wait_time w1) with
                | Some (Blocked, self2, w2) => Some (Blocked, self2, w2)
                | Some (r, self2, w2) => Some (r, with_lock self2 false, w2)
                | None => None
                end
              else
                let '(self2, w2) := record self1 w1 in
                Some (ReturnedNone, with_lock self2 false, w2)
          end
        else
          let '(self2, w2) := record self1 w1 in
          Some (ReturnedNone, with_lock self2 false, w2)
  end.

End AsyncRateLimiter.

(** ** [cost_tracker.py] *)

Module CostTracker.
Open Scope string_scope.

Record pricing := {
  prompt : Q;
  completion : Q
}.

(** Price per 1K tokens, in the order of the dictionary literal. *)
Definition MODEL_PRICING : list (string * pricing) :=
  [ ("gpt-4",                  {| prompt := 0.03;    completion := 0.06 |});
    ("gpt-4-32k",              {| prompt := 0.06;    completion := 0.12 |});
    ("gpt-4-turbo",            {| prompt := 0.01;    completion := 0.03 |});
    ("gpt-4-turbo-preview",    {| prompt := 0.01;    completion := 0.03 |});
    ("gpt-3.5-turbo",          {| prompt := 0.0005;  completion := 0.0015 |});
    ("gpt-3.5-turbo-16k",      {| prompt := 0.003;   completion := 0.004 |});
    ("text-embedding-3-small", {| prompt := 0.00002; completion := 0.0 |});
    ("text-embedding-3-large", {| prompt := 0.00013; completion := 0.0 |});
    ("text-embedding-ada-002", {| prompt := 0.0001;  completion := 0.0 |});
    ("davinci-002",            {| prompt := 0.002;   completion := 0.002 |});
    ("babbage-002",            {| prompt := 0.0004;  completion := 0.0004 |}) ].

(** [dict.get] *)
Fixpoint get {V} (d : list (string * V)) (key : string) : option V :=
  match d with
  | [] => None
  | (k, v) :: d' => if String.eqb k key then Some v else get d' key
  end.

(** [needle in haystack] on [str] *)
Fixpoint contains (haystack needle : string) : bool :=
  if String.prefix needle haystack then true
  else match haystack with
       | EmptyString => false
       | String _ rest => contains rest needle
       end.

(** The [for model_name, model_pricing in MODEL_PRICING.items()] loop:
    the pricing of the first entry whose name occurs in [model]. *)
Fixpoint partial_match (items : list (string * pricing)) (model : string)
  : option pricing :=
  match items with
  | [] => None
  | (model_name, model_pricing) :: rest =>
      if contains model model_name then Some model_pricing
      else partial_match rest model
  end.

Inductive exn :=
| ValueError
| CostLimitExceeded.

Inductive outcome (A : Type) :=
| Returns (v : A)
| Raises (e : exn).
Arguments Returns {A} v.
Arguments Raises {A} e.

(** The cost formula on a pricing entry. *)
Definition cost_with (pr : pricing) (prompt_tokens completion_tokens : Z) : Q :=
  let prompt_cost := (inject_Z prompt_tokens / 1000) * prompt pr in
  let completion_cost := (inject_Z completion_tokens / 1000) * completion pr in
  prompt_cost + completion_cost.

Definition calculate_cost (prompt_tokens completion_tokens : Z) (model : string)
  : outcome Q :=
  let found :=
    match get MODEL_PRICING model with
    | Some pr => Some pr
    | None => partial_match MODEL_PRICING model
    end in
  match found with
  | None => Raises ValueError
  | Some pr => Returns (cost_with pr prompt_tokens completion_tokens)
  end.

(** One entry of [self.calls]. *)
Record call := {
  timestamp : string;
  model : string;
  prompt_tokens : Z;
  completion_tokens : Z;
  total_tokens : Z;
  cost : Q;
  metadata : list (string * string)
}.

(** The two thresholds as [os.getenv] and [float] deliver them; [None]
    is an unset variable. *)
Record environ := {
  COST_WARNING_THRESHOLD : option Q;
  COST_MAX_THRESHOLD : option Q
}.

Definition getenv (v : option Q) (default : Q) : Q :=
  match v with Some x => x | None => default end.

(** What [print] wrote. *)
Inductive printed :=
| Warning (total_cost warning_threshold : Q).

Record t := {
  session_name : string;
  calls : list call;
  start_time : string;
  stdout : list printed
}.

Definition init (session_name start_time : string) : t :=
  {| session_name := session_name; calls := []; start_time := start_time;
     stdout := [] |}.

(** [sum(call["cost"] for call in self.calls)] *)
Definition get_total_cost (self : t) : Q :=
  fold_left (fun acc c => acc + cost c) (calls self) 0.

(** [sum(call["total_tokens"] for call in self.calls)] *)
Definition get_total_tokens (self : t) : Z :=
  fold_left (fun acc c => (acc + total_tokens c)%Z) (calls self) 0%Z.

Definition append_call (self : t) (c : call) : t :=
  {| session_name := session_name self; calls := calls self ++ [c];
     start_time := start_time self; stdout := stdout self |}.

Definition print (self : t) (p : printed) : t :=
  {| session_name := session_name self; calls := calls self;
     start_time := start_time self; stdout := stdout self ++ [p] |}.

Definition _check_thresholds (env : environ) (self : t) : outcome unit * t :=
  let total_cost := get_total_cost self in
  let warning_threshold := getenv (COST_WARNING_THRESHOLD env) 10.0 in
  let max_threshold := getenv (COST_MAX_THRESHOLD env) 50.0 in
  if Qle_bool max_threshold total_cost then (Raises CostLimitExceeded, self)
  else if Qle_bool warning_threshold total_cost then
    (Returns tt, print self (Warning total_cost warning_threshold))
  else (Returns tt, self).

(** The arguments of one [track_tokens] call, with the reading of
    [datetime.now()] taken during it. *)
Record request := {
  at_time : string;
  req_prompt_tokens : Z;
  req_completion_tokens : Z;
  req_model : string;
  req_metadata : option (list (string * string))
}.

(** [metadata or {}] *)
Definition or_empty (m : option (list (string * string))) : list (string * string) :=
  match m with Some m' => m' | None => [] end.

Definition call_data (r : request) (cost : Q) : call :=
  {| timestamp := at_time r;
     model := req_model r;
     prompt_tokens := req_prompt_tokens r;
     completion_tokens := req_completion_tokens r;
     total_tokens := req_prompt_tokens r + req_completion_tokens r;
     cost := cost;
     metadata := or_empty (req_metadata r) |}.

Definition track_tokens (env : environ) (self : t) (r : request) : outcome Q * t :=
  match calculate_cost (req_prompt_tokens r) (req_completion_tokens r) (req_model r) with
  | Raises e => (Raises e, self)
  | Returns cost =>
      let self1 := append_call self (call_data r cost) in
      match _check_thresholds env self1 with
      | (Raises e, self2) => (Raises e, self2)
      | (Returns _, self2) => (Returns cost, self2)
      end
  end.

(** A caller that issues the requests in turn and goes on after an
    exception; the outcomes are listed in the order of the requests. *)
Fixpoint track_all (env : environ) (self : t) (rs : list request)
  : list (outcome Q) * t :=
  match rs with
  | [] => ([], self)
  | r :: rs' =>
      let '(o, self1) := track_tokens env self r in
      let '(os, self2) := track_all env self1 rs' in
      (o :: os, self2)
  end.

(** Costs that calls returned, [0] standing for a call that raised. *)
Definition returned_cost (o : outcome Q) : Q :=
  match o with Returns c => c | Raises _ => 0 end.

Definition returned (o : outcome Q) : Prop :=
  match o with Returns _ => True | Raises _ => False end.

(** The float under [total_cost] of a report: the literal of an empty
    session, or the result of a call [round(number, ndigits)] of the
    built-in.  The built-in rounds the binary value that its argument
    holds, which the rationals of this embedding do not carry, so the
    call is recorded as it is written and no digit of its result is
    fixed here. *)
Inductive rounded :=
| Literal (x : Q)
| Round (number : Q) (ndigits : Z).

(** The float a [rounded] stands for under a reading [round] of the
    built-in. *)
Definition value (round : Q -> Z -> Q) (f : rounded) : Q :=
  match f with
  | Literal x => x
  | Round number ndigits => round number ndigits
  end.

(** What the built-in promises of [round(number, ndigits)]: a multiple
    of [10 ^ (- ndigits)]. *)
Definition decimals (ndigits : Z) (y : Q) : Prop :=
  exists k : Z, y * inject_Z (10 ^ ndigits) == inject_Z k.

(** One value of [by_model]. *)
Record stats := {
  s_calls : Z;
  s_cost : Q;
  s_tokens : Z
}.

(** The body of the grouping loop for one call: create the entry of the
    model when it is missing, then add the call to it. *)
Fixpoint add_to_model (by_model : list (string * stats)) (c : call)
  : list (string * stats) :=
  match by_model with
  | [] => [(model c, {| s_calls := 0 + 1; s_cost := 0.0 + cost c;
                        s_tokens := 0 + total_tokens c |})]
  | (m, s) :: rest =>
      if String.eqb m (model c) then
        (m, {| s_calls := s_calls s + 1; s_cost := s_cost s + cost c;
               s_tokens := s_tokens s + total_tokens c |}) :: rest
      else (m, s) :: add_to_model rest c
  end.

Definition group_by_model (cs : list call) : list (string * stats) :=
  fold_left add_to_model cs [].

(** The dictionary [get_session_report] returns; a key that the
    returned dictionary lacks is [None]. *)
Record report := {
  r_session_name : string;
  r_start_time : option string;
  r_total_calls : Z;
  r_total_cost : rounded;
  r_total_tokens : Z;
  r_by_model : option (list (string * stats));
  r_calls : option (list call)
}.

Definition get_session_report (self : t) : report :=
  match calls self with
  | [] =>
      {| r_session_name := session_name self; r_start_time := None;
         r_total_calls := 0; r_total_cost := Literal 0.0; r_total_tokens := 0;
         r_by_model := None; r_calls := None |}
  | _ :: _ =>
      let total_cost := get_total_cost self in
      let total_tokens := get_total_tokens self in
      let by_model := group_by_model (calls self) in
      {| r_session_name := session_name self;
         r_start_time := Some (start_time self);
         r_total_calls := Z.of_nat (List.length (calls self));
         r_total_cost := Round total_cost 4;
         r_total_tokens := total_tokens;
         r_by_model := Some by_model;
         r_calls := Some (calls self) |}
  end.

(** Sums over the per-model breakdown of a report. *)
Definition breakdown (r : report) : list (string * stats) :=
  match r_by_model r with Some b => b | None => [] end.

Definition breakdown_cost (r : report) : Q :=
  fold_right (fun e acc => s_cost (snd e) + acc) 0 (breakdown r).

Definition breakdown_tokens (r : report) : Z :=
  fold_right (fun e acc => (s_tokens (snd e) + acc)%Z) 0%Z (breakdown r).

(** The tracker after a single call on a fresh session. *)
Definition after_one (env : environ) (self : t) (r : request) : t :=
  snd (track_tokens env self r).

(** [name] occurs somewhere inside [model]. *)
Definition occurs_in (name model : string) : Prop :=
  exists before after, model = before ++ name ++ after.

(** [name] is how [model] starts. *)
Definition starts (name model : string) : Prop :=
  exists after, model = name ++ after.

(** Sum of a list of costs. *)
Definition total (costs : list Q) : Q := fold_right Qplus 0 costs.

(** Sums over a breakdown by model. *)
Definition sum_cost (by_model : list (string * stats)) : Q :=
  fold_right (fun e acc => s_cost (snd e) + acc) 0 by_model.

Definition sum_tokens (by_model : list (string * stats)) : Z :=
  fold_right (fun e acc => (s_tokens (snd e) + acc)%Z) 0%Z by_model.

End CostTracker.

(** ** Sums of rationals *)

(** [sum(l)] on a list of floats. *)
Definition Qsum (l : list Q) : Q := fold_right Qplus 0 l.

(** ** Time spent asleep *)

Module Waiting.
Import Clock.

(** Time that passed before the first [n] readings of the clock. *)
Fixpoint read_time (elapse : nat -> Q) (n : nat) : Q :=
  match n with
  | O => 0
  | S n' => read_time elapse n' + elapse n'
  end.

(** What the clock has gained by [time.sleep] rather than before its
    readings. *)
Definition slept_time (w : world) : Q := now w - read_time (elapse w) (reads w).

End Waiting.

(** ** The two limiters side by side *)

Module Limiters.

(** The threaded limiter with the fields of a cooperative one. *)
Definition threaded (self : AsyncRateLimiter.t) : RateLimiter.t :=
  {| RateLimiter.max_requests := AsyncRateLimiter.max_requests self;
     RateLimiter.time_window := AsyncRateLimiter.time_window self;
     RateLimiter.requests := AsyncRateLimiter.requests self |}.

(** The cooperative limiter with the fields of a threaded one, its lock
    free. *)
Definition cooperative (self : RateLimiter.t) : AsyncRateLimiter.t :=
  {| AsyncRateLimiter.max_requests := RateLimiter.max_requests self;
     AsyncRateLimiter.time_window := RateLimiter.time_window self;
     AsyncRateLimiter.requests := RateLimiter.requests self;
     AsyncRateLimiter.lock := false |}.

Definition same_result (r : RateLimiter.result) : AsyncRateLimiter.result :=
  match r with
  | RateLimiter.ReturnedNone => AsyncRateLimiter.ReturnedNone
  | RateLimiter.RaisedIndexError => AsyncRateLimiter.RaisedIndexError
  end.

End Limiters.

(** ** [get_global_rate_limiter] and [with_rate_limiting] *)

Module GlobalLimiter.
Import Clock.

(** [MAX_REQUESTS_PER_MINUTE] as [os.getenv] and [int] deliver it. *)
Inductive env_int :=
| Unset                    (* the default ["60"] is used *)
| Int (n : Z)
| NotAnInt.                (* [int] raises [ValueError] *)

(** The module-level state. *)
Record process := {
  _global_rate_limiter : option RateLimiter.t;
  MAX_REQUESTS_PER_MINUTE : env_int
}.

Definition store (p : process) (l : RateLimiter.t) : process :=
  {| _global_rate_limiter := Some l;
     MAX_REQUESTS_PER_MINUTE := MAX_REQUESTS_PER_MINUTE p |}.

(** [None] stands for the [ValueError] of [int]. *)
Definition get_global_rate_limiter (p : process) : option RateLimiter.t * process :=
  match _global_rate_limiter p with
  | Some l => (Some l, p)
  | None =>
      match MAX_REQUESTS_PER_MINUTE p with
      | NotAnInt => (None, p)
      | Unset =>
          let l := RateLimiter.init 60 60.0 in (Some l, store p l)
      | Int max_requests =>
          let l := RateLimiter.init max_requests 60.0 in (Some l, store p l)
      end
  end.

Section Decorated.
(** Result type of the decorated function and the exceptions it raises. *)
Variables A E : Type.

Inductive outcome :=
| Returns (v : A)
| Raises (e : E).

(** The decorated function: it ends by returning or raising and may
    let the clock go on meanwhile. *)
Definition function := world -> outcome * world.

Inductive result :=
| FromFunc (o : outcome)    (* what [func] returned or raised, passed on *)
| RaisedValueError          (* from [get_global_rate_limiter] *)
| RaisedIndexError          (* from [acquire] *)
| Diverged.                 (* [acquire] did not come back *)

(** The wrapper that [with_rate_limiting(func)] returns, called once.
    The limiter is the module-level object, so what [acquire] does to it
    is seen by every later call; [__exit__] does nothing and lets an
    exception of [func] pass. *)
Definition with_rate_limiting (func : function) (p : process) (w : world)
  : result * process * world :=
  match get_global_rate_limiter p with
  | (None, p1) => (RaisedValueError, p1, w)
  | (Some rate_limiter, p1) =>
      match RateLimiter.acquire (RateLimiter.enough rate_limiter) rate_limiter w with
      | None => (Diverged, p1, w)
      | Some (RateLimiter.RaisedIndexError, l', w1) =>
          (RaisedIndexError, store p1 l', w1)
      | Some (RateLimiter.ReturnedNone, l', w1) =>
          let '(o, w2) := func w1 in (FromFunc o, store p1 l', w2)
      end
  end.

(** Calls of decorated functions, one after the other, by a caller
    that goes on after an exception; with the results, the timestamp of
    every call that got through the limiter. *)
Fixpoint call_all (funcs : list function) (p : process) (w : world)
  (stamps : list Q) : list result * process * world * list Q :=
  match funcs with
  | [] => ([], p, w, stamps)
  | func :: rest =>
      let '(r, p1, w1) := with_rate_limiting func p w in
      let stamps1 :=
        match r, _global_rate_limiter p1 with
        | FromFunc _, Some l => stamps ++ [last (RateLimiter.requests l) 0]
        | _, _ => stamps
        end in
      let '(rs, p2, w2, stamps2) := call_all rest p1 w1 stamps1 in
      (r :: rs, p2, w2, stamps2)
  end.

(** The function only lets time pass: the clock does not go back and
    keeps its pace. *)
Definition passes_time (func : function) : Prop :=
  forall w, now w <= now (snd (func w)) /\ elapse (snd (func w)) = elapse w.

Definition got_through (r : result) : Prop :=
  match r with FromFunc _ => True | _ => False end.

End Decorated.

Arguments Returns {A E} v.
Arguments Raises {A E} e.
Arguments FromFunc {A E} o.
Arguments RaisedValueError {A E}.
Arguments RaisedIndexError {A E}.
Arguments Diverged {A E}.
Arguments with_rate_limiting {A E} func p w.
Arguments call_all {A E} funcs p w stamps.
Arguments passes_time {A E} func.
Arguments got_through {A E} r.

(** The requests per minute that a fresh process allows. *)
Definition limit (p : process) : option Z :=
  match MAX_REQUESTS_PER_MINUTE p with
  | Unset => Some 60%Z
  | Int n => Some n
  | NotAnInt => None
  end.

End GlobalLimiter.

(** ** More of [cost_tracker.py] *)

Module CostMore.
Import CostTracker.
Open Scope string_scope.

(** [estimate_cost]; [count_tokens] is the tokenizer of [tiktoken], taken
    as given. *)
Definition estimate_cost (count_tokens : string -> string -> Z)
  (prompt model : string) (max_tokens : Z) : outcome Q :=
  let prompt_tokens := count_tokens prompt model in
  calculate_cost prompt_tokens max_tokens model.

(** The calls made with a given model, in call order. *)
Definition calls_of (m : string) (cs : list call) : list call :=
  filter (fun c => String.eqb m (model c)) cs.

(** What the grouping loop does to the entry of a model when it meets a
    call of that model: create it if missing, then add the call. *)
Definition bump (st : option stats) (c : call) : stats :=
  match st with
  | None => {| s_calls := 0 + 1; s_cost := 0.0 + cost c;
               s_tokens := 0 + total_tokens c |}
  | Some s => {| s_calls := s_calls s + 1; s_cost := s_cost s + cost c;
                 s_tokens := s_tokens s + total_tokens c |}
  end.

Definition bump_all (st : option stats) (cs : list call) : option stats :=
  fold_left (fun st c => Some (bump st c)) cs st.

(** The distinct names of a list, in the order of their first
    occurrence. *)
Fixpoint first_uses (seen names : list string) : list string :=
  match names with
  | [] => seen
  | n :: rest =>
      if existsb (String.eqb n) seen then first_uses seen rest
      else first_uses (seen ++ [n]) rest
  end.

(** Sum of the token counts of calls. *)
Definition tokens_of (cs : list call) : Z :=
  fold_right (fun c acc => (total_tokens c + acc)%Z) 0%Z cs.

(** A request with token counts that are not negative, for a model that
    has a price. *)
Definition billable (r : request) : Prop :=
  (0 <= req_prompt_tokens r)%Z /\ (0 <= req_completion_tokens r)%Z /\
  exists x,
    calculate_cost (req_prompt_tokens r) (req_completion_tokens r) (req_model r)
    = Returns x.

End CostMore.

(** ** The global tracker, [track_cost] and [print_summary] *)

Module GlobalTracker.
Import CostTracker.
Open Scope string_scope.

(** [response.usage] *)
Record usage := {
  u_prompt_tokens : Z;
  u_completion_tokens : Z
}.

(** What a decorated function returns: an object that may or may not
    have the attributes [usage] and [model]. *)
Record response := {
  r_usage : option usage;
  r_model : option string
}.

(** What the decorator itself prints. *)
Inductive message :=
| CouldNotTrack (e : exn).     (* [Warning: Could not track cost: ...] *)

(** The module-level state and the console. *)
Record process := {
  _global_tracker : option CostTracker.t;
  console : list message
}.

Definition store (p : process) (tracker : CostTracker.t) : process :=
  {| _global_tracker := Some tracker; console := console p |}.

Definition say (p : process) (m : message) : process :=
  {| _global_tracker := _global_tracker p; console := (console p ++ [m])%list |}.

(** [get_global_tracker]; [now] is the reading of [datetime.now()] that
    a new tracker takes as its start time. *)
Definition get_global_tracker (now : string) (p : process) : CostTracker.t * process :=
  match _global_tracker p with
  | Some tracker => (tracker, p)
  | None =>
      let tracker := CostTracker.init "global" now in
      (tracker, store p tracker)
  end.

(** [model or getattr(response, 'model', 'gpt-3.5-turbo')]: an empty
    string counts as no model. *)
Definition model_used (model : option string) (resp : response) : string :=
  let from_response :=
    match r_model resp with Some m => m | None => "gpt-3.5-turbo" end in
  match model with
  | None => from_response
  | Some m => if String.eqb m "" then from_response else m
  end.

(** The request that [track_from_response] hands to [track_tokens]. *)
Definition request_of (at_time : string) (u : usage) (model : string)
  (metadata : option (list (string * string))) : request :=
  {| at_time := at_time;
     req_prompt_tokens := u_prompt_tokens u;
     req_completion_tokens := u_completion_tokens u;
     req_model := model;
     req_metadata := metadata |}.

Section Decorated.
(** The exceptions of the decorated function. *)
Variable E : Type.

(** One call of the decorated function. *)
Inductive called :=
| Responds (r : response)
| Fails (e : E).

(** The wrapper that [track_cost(func)] returns, called once: [start]
    and [at_time] are the readings of [datetime.now()] taken when the
    global tracker is created and when the call is recorded, [name] is
    [func.__name__], [o] is what [func] does.  The tracker is the
    module-level object, so the record stays whatever is raised. *)
Definition track_cost (env : environ) (start at_time name : string) (o : called)
  (p : process) : called * process :=
  let '(tracker, p1) := get_global_tracker start p in
  match o with
  | Fails e => (Fails e, p1)
  | Responds resp =>
      match r_usage resp with
      | None => (Responds resp, p1)
      | Some u =>
          let r := request_of at_time u (model_used None resp)
                     (Some [("function", name)]) in
          match track_tokens env tracker r with
          | (Returns _, tracker') => (Responds resp, store p1 tracker')
          | (Raises e, tracker') =>
              (Responds resp, say (store p1 tracker') (CouldNotTrack e))
          end
      end
  end.

End Decorated.

Arguments Responds {E} r.
Arguments Fails {E} e.
Arguments track_cost {E} env start at_time name o p.

(** The tracker that the next call will use. *)
Definition current (p : process) (start : string) : CostTracker.t :=
  fst (get_global_tracker start p).

(** Lines of [print_summary]. *)
Inductive line :=
| Rule                         (* seventy [=] *)
| Session (name : string)
| TotalCalls (n : Z)
| TotalCost (cost : rounded)
| TotalTokens (n : Z)
| Duration
| ByModel
| Model (name : string)
| Calls (n : Z)
| Cost (cost : Q)
| Tokens (n : Z).

Inductive summary :=
| Printed
| RaisedKeyError.              (* [report['by_model']] on a report without it *)

Definition model_lines (entry : string * stats) : list line :=
  [Model (fst entry); Calls (s_calls (snd entry)); Cost (s_cost (snd entry));
   Tokens (s_tokens (snd entry))].

(** [print_summary]: the outcome and the lines printed before it. *)
Definition print_summary (self : CostTracker.t) : summary * list line :=
  let report := get_session_report self in
  let heading :=
    [Rule; Session (r_session_name report); Rule;
     TotalCalls (r_total_calls report); TotalCost (r_total_cost report);
     TotalTokens (r_total_tokens report); Duration] in
  match r_by_model report with
  | None => (RaisedKeyError, heading)
  | Some by_model =>
      let models :=
        match by_model with
        | [] => []
        | _ :: _ => ByModel :: flat_map model_lines by_model
        end in
      (Printed, (heading ++ models ++ [Rule])%list)
  end.

End GlobalTracker.

(** ** [validate_response] and [handle_api_error] *)

Module ApiHelpers.
Open Scope string_scope.

(** A response is a [dict] or another object; either way what matters
    is which names it has. *)
Inductive response :=
| DictResponse (keys : list string)
| ObjectResponse (attributes : list string).

(** [field in response] on a dict, [hasattr(response, field)]
    otherwise. *)
Definition has_field (r : response) (field : string) : bool :=
  match r with
  | DictResponse keys => existsb (String.eqb field) keys
  | ObjectResponse attributes => existsb (String.eqb field) attributes
  end.

(** The names a response has. *)
Definition names (r : response) : list string :=
  match r with
  | DictResponse keys => keys
  | ObjectResponse attributes => attributes
  end.

Inductive validation :=
| ReturnsTrue
| RaisesValueError (field : string).   (* [Response missing required field: ...] *)

Fixpoint check_fields (r : response) (fields : list string) : validation :=
  match fields with
  | [] => ReturnsTrue
  | field :: rest =>
      if has_field r field then check_fields r rest else RaisesValueError field
  end.

Definition validate_response (r : response) (required_fields : option (list string))
  : validation :=
  match required_fields with
  | None => ReturnsTrue
  | Some fields => check_fields r fields
  end.

(** [str.lower] on text of the ASCII range. *)
Definition lower_ascii (a : ascii) : ascii :=
  let n := nat_of_ascii a in
  if ((65 <=? n) && (n <=? 90))%nat then ascii_of_nat (n + 32) else a.

Fixpoint lower (s : string) : string :=
  match s with
  | EmptyString => EmptyString
  | String a rest => String (lower_ascii a) (lower rest)
  end.

Definition QUOTA : string :=
  "API quota exceeded. Please check your billing settings and usage limits. Visit https://platform.openai.com/account/billing".

Definition INVALID_KEY : string :=
  "Invalid API key. Please check your .env file and ensure OPENAI_API_KEY is correct. Get your key from https://platform.openai.com/api-keys".

Definition RATE_LIMIT : string :=
  "Rate limit exceeded. Please wait a moment and try again. Consider implementing rate limiting in your code.".

Definition TIMEOUT : string :=
  "Request timed out. Please check your internet connection and try again.".

Definition MODEL_NOT_FOUND : string :=
  "Model not found or not accessible. Please verify the model name and your API access. List available models: https://platform.openai.com/docs/models".

(** [handle_api_error], on [str(error)]. *)
Definition handle_api_error (error_msg : string) : option string :=
  if CostTracker.contains error_msg "insufficient_quota"
     || CostTracker.contains (lower error_msg) "quota" then Some QUOTA
  else if CostTracker.contains error_msg "invalid_api_key"
          || CostTracker.contains (lower error_msg) "authentication" then
    Some INVALID_KEY
  else if CostTracker.contains (lower error_msg) "rate_limit" then Some RATE_LIMIT
  else if CostTracker.contains (lower error_msg) "timeout" then Some TIMEOUT
  else if CostTracker.contains error_msg "model_not_found"
          || CostTracker.contains (lower error_msg) "model" then
    Some MODEL_NOT_FOUND
  else Some ("API error: " ++ error_msg).

(** A word occurs in a text, letter case apart. *)
Definition mentions (word text : string) : Prop :=
  CostTracker.occurs_in word (lower text).

End ApiHelpers.

(** * Concrete runs *)

Module RetryRuns.
Import Retry.

(** The decorator's defaults. *)
Definition defaults : config unit :=
  {| max_retries := 3; initial_delay := 1.0; max_delay := 60.0;
     exponential_base := 2.0; jitter := true;
     retryable_exceptions := fun _ => true |}.

(** One retry, jitter on. *)
Definition one_retry : config unit :=
  {| max_retries := 1; initial_delay := 1.0; max_delay := 60.0;
     exponential_base := 2.0; jitter := true;
     retryable_exceptions := fun _ => true |}.

(** A base below one, jitter off. *)
Definition shrinking : config unit :=
  {| max_retries := 2; initial_delay := 1.0; max_delay := 60.0;
     exponential_base := 0.5; jitter := false;
     retryable_exceptions := fun _ => true |}.

Definition no_attempts : config unit :=
  {| max_retries := -1; initial_delay := 1.0; max_delay := 60.0;
     exponential_base := 2.0; jitter := true;
     retryable_exceptions := fun _ => true |}.

Definition always_fails : nat -> outcome nat unit := fun _ => Raises tt.

Definition third_time_lucky : nat -> outcome nat unit :=
  fun i => if (i <? 2)%nat then Raises tt else Returns 7%nat.

Definition quarter : nat -> Q := fun _ => 0.25.

Definition three_quarters : nat -> Q := fun _ => 0.75.

End RetryRuns.

Module CostRuns.
Import CostTracker.
Open Scope string_scope.

(** Both threshold variables unset: warning at 10.0, stop at 50.0. *)
Definition unset : environ :=
  {| COST_WARNING_THRESHOLD := None; COST_MAX_THRESHOLD := None |}.

Definition fresh : t := init "session" "2026-02-10T09:00:00".

Definition first_call : request :=
  {| at_time := "2026-02-10T09:00:01"; req_prompt_tokens := 100;
     req_completion_tokens := 200; req_model := "gpt-3.5-turbo";
     req_metadata := None |}.

Definition second_call : request :=
  {| at_time := "2026-02-10T09:00:02"; req_prompt_tokens := 50;
     req_completion_tokens := 100; req_model := "gpt-3.5-turbo";
     req_metadata := None |}.

(** A single prompt token of the cheapest chat model. *)
Definition tiny_call : request :=
  {| at_time := "2026-02-10T09:00:01"; req_prompt_tokens := 1;
     req_completion_tokens := 0; req_model := "gpt-3.5-turbo";
     req_metadata := None |}.

(** 400,000 prompt tokens of [gpt-4]: 12 dollars. *)
Definition large_call : request :=
  {| at_time := "2026-02-10T09:00:03"; req_prompt_tokens := 400000;
     req_completion_tokens := 0; req_model := "gpt-4";
     req_metadata := None |}.

(** 2,000,000 prompt tokens of [gpt-4]: 60 dollars. *)
Definition huge_call : request :=
  {| at_time := "2026-02-10T09:00:04"; req_prompt_tokens := 2000000;
     req_completion_tokens := 0; req_model := "gpt-4";
     req_metadata := None |}.

End CostRuns.

Module LimiterRuns.
Import Clock.

(** One request per second. *)
Definition one_per_second : RateLimiter.t := RateLimiter.init 1 1.0.

Definition async_one_per_second : AsyncRateLimiter.t := AsyncRateLimiter.init 1 1.0.

(** The clock reads 0, 0, then 1 four times: the second call of
    [acquire] starts exactly one window after the first record, the third
    call at the same reading. *)
Definition same_reading : world := starting [0; 0; 1.0; 0; 0; 0] 0.

(** The clock reads 0, 0, then 0.5: the second call starts half a window
    after the first record. *)
Definition half_window_later : world := starting [0; 0; 0.5] 0.

(** Two threads enter [acquire] on a fresh limiter; a millisecond passes
    before each reading of the clock. *)
Definition two_threads : RateLimiter.system :=
  {| RateLimiter.shared := one_per_second;
     RateLimiter.clock := starting [] 0.001;
     RateLimiter.threads := [RateLimiter.AtEntry; RateLimiter.AtEntry] |}.

(** Both threads pass the test of the limit before either records. *)
Definition both_check_first : list nat := [0; 0; 0; 1; 1; 1; 0; 1]%nat.

End LimiterRuns.

Module MoreRetryRuns.
Import Retry.

(** Exceptions of two classes, of which only the first is listed in
    [retryable_exceptions]. *)
Inductive error := Transient | Fatal.

Definition transient_only : config error :=
  {| max_retries := 3; initial_delay := 1.0; max_delay := 60.0;
     exponential_base := 2.0; jitter := false;
     retryable_exceptions := fun e => match e with Transient => true | Fatal => false end |}.

(** Two transient failures, then a fatal one. *)
Definition fatal_third : nat -> outcome nat error :=
  fun i => if (i <? 2)%nat then Raises Transient else Raises Fatal.

(** A delay below zero. *)
Definition negative_delay : config unit :=
  {| max_retries := 3; initial_delay := -1.0; max_delay := 60.0;
     exponential_base := 2.0; jitter := true;
     retryable_exceptions := fun _ => true |}.

End MoreRetryRuns.

Module MoreLimiterRuns.
Import Clock.

(** Two requests per second. *)
Definition two_per_second : RateLimiter.t := RateLimiter.init 2 1.0.

(** A clock of which every reading is a millisecond after the one
    before. *)
Definition ticking : world := starting [] 0.001.

(** A limiter of one request per second that recorded a request at 0.2,
    read at 0.5. *)
Definition busy : RateLimiter.t :=
  {| RateLimiter.max_requests := 1; RateLimiter.time_window := 1.0;
     RateLimiter.requests := [0.2] |}.

Definition at_half : world := {| now := 0.5; reads := 0; elapse := fun _ => 0.001 |}.

End MoreLimiterRuns.

Module DecoratedRuns.
Import Clock GlobalLimiter.

(** A function that takes a quarter of a second and returns [7]. *)
Definition quick : function nat unit :=
  fun w => (Returns 7%nat, time_sleep 0.25 w).

(** A function that raises at once. *)
Definition failing : function nat unit := fun w => (Raises tt, w).

Definition two_a_minute : process :=
  {| _global_rate_limiter := None; MAX_REQUESTS_PER_MINUTE := Int 2 |}.

Definition none_a_minute : process :=
  {| _global_rate_limiter := None; MAX_REQUESTS_PER_MINUTE := Int 0 |}.

End DecoratedRuns.

Module TrackerRuns.
Import CostTracker GlobalTracker.
Open Scope string_scope.

(** A session that has already spent 60 dollars. *)
Definition spent : CostTracker.t :=
  snd (track_tokens CostRuns.unset CostRuns.fresh CostRuns.huge_call).

Definition over_budget : process :=
  {| _global_tracker := Some spent; console := [] |}.

Definition chat_response : response :=
  {| r_usage := Some {| u_prompt_tokens := 100; u_completion_tokens := 200 |};
     r_model := Some "gpt-3.5-turbo" |}.

(** Three calls on two models. *)
Definition mixed : CostTracker.t :=
  snd (track_all CostRuns.unset CostRuns.fresh
         [CostRuns.first_call; CostRuns.large_call; CostRuns.second_call]).

End TrackerRuns.

Module HelperRuns.
Import ApiHelpers.
Open Scope string_scope.

Definition chat_completion : response := DictResponse ["id"; "choices"; "usage"].

End HelperRuns.

(** * Properties *)

Lemma Qltb_lt (x y : Q) : Qltb x y = true <-> x < y.
Proof.
  unfold Qltb. rewrite negb_true_iff, <- not_true_iff_false, Qle_bool_iff.
  split; [apply Qnot_le_lt | apply Qlt_not_le].
Qed.

Lemma Qltb_ge (x y : Q) : Qltb x y = false <-> y <= x.
Proof.
  unfold Qltb. rewrite negb_false_iff. apply Qle_bool_iff.
Qed.

(** ** Retry with exponential backoff *)

Section RetryFacts.
Import Retry.
Variables A E : Type.
Variable fl : flavour.
Variable func : nat -> outcome A E.
Variable random : nat -> Q.
Variable cfg : config E.

Local Abbreviation random_unit := (random_unit random).
Local Abbreviation sleeps_ok := (sleeps_ok fl cfg).
Local Abbreviation fails_retryably := (fails_retryably func cfg).
Local Abbreviation actual := (actual random cfg).
Local Abbreviation retried := (retried random cfg).
Local Abbreviation warned := (warned random cfg).
Local Abbreviation sleeps_from := (sleeps_from random cfg).
Local Abbreviation attempts := (attempts fl func random cfg).
Local Abbreviation wrapper := (wrapper fl func random cfg).

Lemma jittered_nonneg delay u : 0 <= delay -> 0 <= u -> 0 <= jittered delay u.
Proof.
  intros Hd Hu. unfold jittered. apply Qmult_le_0_compat; [assumption | lra].
Qed.

Lemma actual_nonneg delay d :
  random_unit -> 0 <= delay -> 0 <= max_delay cfg -> 0 <= actual delay d.
Proof.
  intros Hr Hd Hm. unfold actual. apply Q.min_glb; [| assumption].
  destruct (jitter cfg); [| assumption].
  apply jittered_nonneg; [assumption | apply Hr].
Qed.

Lemma actual_le_max delay d : actual delay d <= max_delay cfg.
Proof. apply Q.le_min_r. Qed.

Lemma sleep_accepts d (w : world E) :
  (fl = Threaded -> 0 <= d) ->
  sleep fl d w =
    Some {| invocations := invocations w; draws := draws w;
            slept := slept w ++ [d]; logged := logged w |}.
Proof.
  intros H. unfold sleep. destruct fl; [| reflexivity].
  specialize (H eq_refl). apply Qltb_ge in H. rewrite H. reflexivity.
Qed.

(** The loop body, once. *)
Lemma attempts_unfold n attempt delay w :
  attempts (S n) attempt delay w =
  match func (invocations w) with
  | Returns v => (Returned v, snd (invoke func w))
  | Raises e =>
      if negb (retryable_exceptions cfg e) then (Raised e, snd (invoke func w))
      else if (attempt =? max_retries cfg)%Z then
        (Raised e, log (LogError (max_retries cfg)) (snd (invoke func w)))
      else
        match sleep fl (actual delay (draws w)) (warned attempt e delay w) with
        | None => (RaisedValueError, warned attempt e delay w)
        | Some w4 =>
            attempts n (attempt + 1)%Z (delay * exponential_base cfg) w4
        end
  end.
Proof.
  cbn [Retry.attempts]. unfold invoke at 1. cbn [snd].
  destruct (func (invocations w)) as [v | e]; [reflexivity |].
  destruct (negb (retryable_exceptions cfg e)); [reflexivity |].
  destruct (attempt =? max_retries cfg)%Z; [reflexivity |].
  unfold Retry.warned, Retry.actual.
  destruct (jitter cfg); reflexivity.
Qed.

Lemma sleep_warned attempt e delay w w4 :
  sleep fl (actual delay (draws w)) (warned attempt e delay w) = Some w4 ->
  w4 = retried attempt e delay w.
Proof.
  unfold Retry.sleep, Retry.warned, Retry.retried.
  destruct fl; [destruct (Qltb _ 0); [discriminate |] |];
    intros [= <-]; reflexivity.
Qed.

(** One failed attempt that is not the last one: the loop goes on with
    the next attempt number and the scaled delay. *)
Lemma attempts_retry n attempt delay w e :
  func (invocations w) = Raises e ->
  retryable_exceptions cfg e = true ->
  attempt <> max_retries cfg ->
  (fl = Threaded -> 0 <= actual delay (draws w)) ->
  attempts (S n) attempt delay w =
  attempts n (attempt + 1)%Z (delay * exponential_base cfg)
    (retried attempt e delay w).
Proof.
  intros Hf Hr Hne Hs. rewrite attempts_unfold, Hf, Hr. cbn [negb].
  apply Z.eqb_neq in Hne. rewrite Hne.
  rewrite sleep_accepts by assumption. reflexivity.
Qed.

Lemma grow_nonneg delay k :
  0 <= delay -> 0 <= exponential_base cfg -> 0 <= grow cfg delay k.
Proof.
  revert delay. induction k as [| k IH]; intros delay Hd Hb; cbn [grow].
  - assumption.
  - apply IH; [apply Qmult_le_0_compat |]; assumption.
Qed.

Lemma attempts_after_failures k :
  forall n attempt delay w,
    fails_retryably (invocations w) k ->
    (attempt + Z.of_nat k <= max_retries cfg)%Z ->
    random_unit ->
    (fl = Threaded ->
     0 <= delay /\ 0 <= exponential_base cfg /\ 0 <= max_delay cfg) ->
    exists w',
      attempts (k + n) attempt delay w =
      attempts n (attempt + Z.of_nat k)%Z (grow cfg delay k) w'
      /\ invocations w' = (invocations w + k)%nat
      /\ draws w' = (if jitter cfg then draws w + k else draws w)%nat
      /\ slept w' = slept w ++ sleeps_from k delay (draws w).
Proof.
  induction k as [| k IH]; intros n attempt delay w Hfail Hle Hrand Hok.
  - exists w. cbn [Nat.add grow sleeps_from Z.of_nat].
    rewrite Z.add_0_r, Nat.add_0_r, app_nil_r.
    repeat split; try reflexivity.
    destruct (jitter cfg); [rewrite Nat.add_0_r |]; reflexivity.
  - destruct (Hfail 0%nat) as (e & He & Hret); [lia |].
    rewrite Nat.add_0_r in He.
    assert (Hne : attempt <> max_retries cfg) by lia.
    assert (Hact : fl = Threaded -> 0 <= actual delay (draws w)).
    { intros Hfl. destruct (Hok Hfl) as (Hd & _ & Hm).
      apply actual_nonneg; assumption. }
    destruct (IH n (attempt + 1)%Z (delay * exponential_base cfg)
                (retried attempt e delay w)) as (w' & Hrun & Hinv & Hdr & Hsl).
    + intros i Hi. destruct (Hfail (S i)) as (e' & He' & Hret'); [lia |].
      exists e'. split; [| assumption]. cbn [retried invocations].
      rewrite <- He'. f_equal. lia.
    + lia.
    + assumption.
    + intros Hfl. destruct (Hok Hfl) as (Hd & Hb & Hm).
      repeat split; try assumption. apply Qmult_le_0_compat; assumption.
    + exists w'. split; [| split; [| split]].
      * change (S k + n)%nat with (S (k + n)).
        rewrite (attempts_retry _ _ _ _ e) by assumption.
        rewrite Hrun. f_equal. lia.
      * rewrite Hinv. cbn [retried invocations]. lia.
      * rewrite Hdr. cbn [retried draws]. destruct (jitter cfg); lia.
      * rewrite Hsl. cbn [retried slept draws sleeps_from].
        rewrite <- app_assoc. reflexivity.
Qed.

(** The delays slept, one by one. *)
Lemma sleeps_from_length k delay d : List.length (sleeps_from k delay d) = k.
Proof.
  revert delay d. induction k as [| k IH]; intros; cbn [sleeps_from List.length].
  - reflexivity.
  - rewrite IH. reflexivity.
Qed.

Lemma sleeps_from_nth k :
  forall delay d i, (i < k)%nat ->
    nth i (sleeps_from k delay d) 0 =
    actual (grow cfg delay i) (if jitter cfg then d + i else d)%nat.
Proof.
  induction k as [| k IH]; intros delay d i Hi; [lia |].
  cbn [sleeps_from]. destruct i as [| i]; cbn [nth grow].
  - destruct (jitter cfg); [rewrite Nat.add_0_r |]; reflexivity.
  - rewrite IH by lia. destruct (jitter cfg); [| reflexivity].
    f_equal. lia.
Qed.

(** Whatever [func] does, the delays slept during a run are those of a
    row of failed attempts. *)
Lemma attempts_slept_shape n :
  forall attempt delay w,
    exists m, (m <= n)%nat /\
      slept (snd (attempts n attempt delay w)) =
      slept w ++ sleeps_from m delay (draws w).
Proof.
  induction n as [| n IH]; intros attempt delay w.
  - exists 0%nat. cbn. rewrite app_nil_r. auto.
  - rewrite attempts_unfold.
    destruct (func (invocations w)) as [v | e];
      [exists 0%nat; cbn; rewrite app_nil_r; split; [lia | reflexivity] |].
    destruct (negb (retryable_exceptions cfg e));
      [exists 0%nat; cbn; rewrite app_nil_r; split; [lia | reflexivity] |].
    destruct (attempt =? max_retries cfg)%Z;
      [exists 0%nat; cbn; rewrite app_nil_r; split; [lia | reflexivity] |].
    destruct (sleep fl _ _) as [w4 |] eqn:Hsleep;
      [| exists 0%nat; cbn; rewrite app_nil_r; split; [lia | reflexivity]].
    apply sleep_warned in Hsleep. subst w4.
    destruct (IH (attempt + 1)%Z (delay * exponential_base cfg)
                (retried attempt e delay w)) as (m & Hm & Hs).
    exists (S m). split; [lia |]. rewrite Hs.
    cbn [Retry.retried slept draws Retry.sleeps_from].
    rewrite <- app_assoc. reflexivity.
Qed.

(** Every invocation after the first follows a sleep: a run of the
    loop that starts at [attempt] with the iterations that are left to
    it invokes [func] once more than it sleeps. *)
Lemma attempts_invocations_shape n :
  forall attempt delay w,
    (Z.of_nat (S n) + attempt = max_retries cfg + 1)%Z ->
    exists m, (m <= n)%nat /\
      slept (snd (attempts (S n) attempt delay w)) =
      slept w ++ sleeps_from m delay (draws w) /\
      invocations (snd (attempts (S n) attempt delay w)) =
      (invocations w + S m)%nat.
Proof.
  induction n as [| n IH]; intros attempt delay w Hleft; rewrite attempts_unfold.
  - destruct (func (invocations w)) as [v | e];
      [exists 0%nat; cbn; rewrite app_nil_r; repeat split; lia |].
    destruct (negb (retryable_exceptions cfg e));
      [exists 0%nat; cbn; rewrite app_nil_r; repeat split; lia |].
    replace (attempt =? max_retries cfg)%Z with true
      by (symmetry; apply Z.eqb_eq; lia).
    exists 0%nat. cbn. rewrite app_nil_r. repeat split; lia.
  - destruct (func (invocations w)) as [v | e];
      [exists 0%nat; cbn; rewrite app_nil_r; repeat split; lia |].
    destruct (negb (retryable_exceptions cfg e));
      [exists 0%nat; cbn; rewrite app_nil_r; repeat split; lia |].
    destruct (attempt =? max_retries cfg)%Z;
      [exists 0%nat; cbn; rewrite app_nil_r; repeat split; lia |].
    destruct (sleep fl _ _) as [w4 |] eqn:Hsleep;
      [| exists 0%nat; cbn; rewrite app_nil_r; repeat split; lia].
    apply sleep_warned in Hsleep. subst w4.
    destruct (IH (attempt + 1)%Z (delay * exponential_base cfg)
                (retried attempt e delay w)) as (m & Hm & Hs & Hi); [lia |].
    exists (S m). split; [lia |]. rewrite Hs, Hi.
    cbn [Retry.retried slept draws invocations Retry.sleeps_from].
    rewrite <- app_assoc. split; [reflexivity | lia].
Qed.

(** The same for one call of the wrapper. *)
Lemma wrapper_invocations_shape w :
  exists m,
    slept (snd (wrapper w)) =
    slept w ++ sleeps_from m (initial_delay cfg) (draws w) /\
    ((0 <= max_retries cfg)%Z ->
     invocations (snd (wrapper w)) = (invocations w + S m)%nat).
Proof.
  unfold Retry.wrapper.
  destruct (Z_le_gt_dec 0 (max_retries cfg)) as [Hr | Hr].
  - replace (Z.to_nat (max_retries cfg + 1))
      with (S (Z.to_nat (max_retries cfg))) by lia.
    destruct (attempts_invocations_shape (Z.to_nat (max_retries cfg)) 0%Z
                (initial_delay cfg) w) as (m & _ & Hs & Hi); [lia |].
    exists m. split; [exact Hs | intros _; exact Hi].
  - replace (Z.to_nat (max_retries cfg + 1)) with 0%nat by lia.
    exists 0%nat. cbn. rewrite app_nil_r. split; [reflexivity | lia].
Qed.

Lemma sleeps_from_bounded k :
  forall delay d, Forall (fun x => x <= max_delay cfg) (sleeps_from k delay d).
Proof.
  induction k as [| k IH]; intros delay d; cbn [Retry.sleeps_from]; constructor.
  - apply actual_le_max.
  - apply IH.
Qed.

Lemma grow_succ k : forall d, grow cfg d (S k) = grow cfg d k * exponential_base cfg.
Proof.
  induction k as [| k IH]; intros d; [reflexivity |].
  change (grow cfg d (S (S k))) with (grow cfg (d * exponential_base cfg) (S k)).
  rewrite IH. reflexivity.
Qed.




(** C10.  With a negative [max_retries] the wrapper returns [None]: the
    loop body never runs, the wrapped function is never invoked and
    nothing is raised, slept or logged. *)
Theorem negative_max_retries_returns_none :
  (max_retries cfg < 0)%Z ->
  forall w, wrapper w = (ReturnedNone, w).
Proof.
  intros Hneg w. unfold Retry.wrapper.
  replace (Z.to_nat (max_retries cfg + 1)) with 0%nat by lia.
  reflexivity.
Qed.

End RetryFacts.

Section RetryRunsFacts.
Import Retry RetryRuns.

Lemma quarter_unit : random_unit quarter.
Proof. intros i. unfold quarter. split; lra. Qed.

Lemma always_fails_retryably cfg from k :
  retryable_exceptions cfg tt = true -> fails_retryably always_fails cfg from k.
Proof. intros H i _. exists tt. split; [reflexivity | exact H]. Qed.







Lemma negative_max_retries_returns_none_witness :
  (max_retries no_attempts < 0)%Z /\
  retry_with_backoff no_attempts always_fails quarter start = (ReturnedNone, start) /\
  async_retry_with_backoff no_attempts always_fails quarter start
  = (ReturnedNone, start).
Proof.
  assert (H : (max_retries no_attempts < 0)%Z) by (cbn; lia).
  split; [exact H |]. split.
  - apply (negative_max_retries_returns_none nat unit Threaded always_fails quarter
             no_attempts H).
  - apply (negative_max_retries_returns_none nat unit Cooperative always_fails
             quarter no_attempts H).
Defined.

End RetryRunsFacts.

(** ** Cost calculation *)

Section CostFacts.
Import CostTracker CostMore.
Open Scope string_scope.

Lemma prefix_starts name : forall model,
  String.prefix name model = true <-> starts name model.
Proof.
  induction name as [| a name IH]; intros model.
  - split; [intros _; exists model; reflexivity |].
    intros _. destruct model; reflexivity.
  - destruct model as [| b model]; cbn [String.prefix].
    + split; [discriminate | intros [after H]; discriminate].
    + destruct (ascii_dec a b) as [-> | Hne].
      * rewrite IH. split; intros [after H]; exists after.
        -- cbn. rewrite <- H. reflexivity.
        -- cbn in H. injection H as H. exact H.
      * split; [discriminate |].
        intros [after H]. cbn in H. injection H as H _. congruence.
Qed.

Lemma contains_occurs model : forall name,
  contains model name = true <-> occurs_in name model.
Proof.
  induction model as [| c model IH]; intros name; cbn [contains].
  - destruct (String.prefix name "") eqn:Hp.
    + split; [intros _ | reflexivity]. apply prefix_starts in Hp.
      destruct Hp as [after H]. exists "", after. exact H.
    + split; [discriminate |]. intros (before & after & H).
      destruct before as [| b before]; [| discriminate].
      assert (Hs : starts name "") by (exists after; exact H).
      apply prefix_starts in Hs. congruence.
  - destruct (String.prefix name (String c model)) eqn:Hp.
    + split; [intros _ | reflexivity]. apply prefix_starts in Hp.
      destruct Hp as [after H]. exists "", after. exact H.
    + rewrite IH. split.
      * intros (before & after & H). exists (String c before), after.
        cbn. rewrite H. reflexivity.
      * intros (before & after & H). destruct before as [| b before].
        -- assert (Hs : starts name (String c model)) by (exists after; exact H).
           apply prefix_starts in Hs. congruence.
        -- cbn in H. injection H as _ H. exists before, after. exact H.
Qed.

Lemma contains_false model name :
  contains model name = false <-> ~ occurs_in name model.
Proof.
  rewrite <- contains_occurs. destruct (contains model name); split; easy.
Qed.

(** The loop returns the first entry, in dictionary order, whose name
    occurs in the model. *)
Lemma partial_match_first items : forall model before name pr after,
  items = (before ++ (name, pr) :: after)%list ->
  occurs_in name model ->
  (forall name' pr', In (name', pr') before -> ~ occurs_in name' model) ->
  partial_match items model = Some pr.
Proof.
  intros model before. revert items.
  induction before as [| [n0 p0] before IH]; intros items name pr after -> Hocc Hnone.
  - cbn. apply contains_occurs in Hocc. rewrite Hocc. reflexivity.
  - cbn. assert (H0 : contains model n0 = false).
    { apply contains_false. apply (Hnone n0 p0). left. reflexivity. }
    rewrite H0. apply (IH _ name pr after eq_refl Hocc).
    intros name' pr' Hin. apply (Hnone name' pr'). right. exact Hin.
Qed.

Lemma partial_match_none items : forall model,
  (forall name pr, In (name, pr) items -> ~ occurs_in name model) ->
  partial_match items model = None.
Proof.
  induction items as [| [n0 p0] items IH]; intros model Hnone; cbn; [reflexivity |].
  assert (H0 : contains model n0 = false).
  { apply contains_false. apply (Hnone n0 p0). left. reflexivity. }
  rewrite H0. apply IH. intros name pr Hin. apply (Hnone name pr). right. exact Hin.
Qed.

Lemma get_None {V} (d : list (string * V)) key :
  get d key = None <-> forall v, ~ In (key, v) d.
Proof.
  induction d as [| [k v0] d IH]; cbn.
  - split; [intros _ v H; exact H | reflexivity].
  - destruct (String.eqb k key) eqn:Hk.
    + apply String.eqb_eq in Hk. subst k. split; [discriminate |].
      intros H. exfalso. apply (H v0). left. reflexivity.
    + apply String.eqb_neq in Hk. rewrite IH. split.
      * intros H v [Heq | Hin]; [congruence | exact (H v Hin)].
      * intros H v Hin. apply (H v). right. exact Hin.
Qed.

(** No model name is listed twice in the price table. *)
Lemma MODEL_PRICING_exact model pr :
  In (model, pr) MODEL_PRICING -> get MODEL_PRICING model = Some pr.
Proof.
  unfold MODEL_PRICING. cbn [In].
  intros H. repeat (destruct H as [[= <- <-] | H]; [reflexivity |]). contradiction.
Qed.

(** C5, as the code has it.  The cost is
    [(p/1000) * price_prompt + (c/1000) * price_completion] on the entry
    of the price table named exactly [m]; when no entry is named [m], on
    the first entry, in table order, whose name occurs anywhere inside
    [m]; when no entry name occurs inside [m], [ValueError] is raised. *)
Theorem calculate_cost_lookup (p c : Z) (m : string) :
  (forall pr, In (m, pr) MODEL_PRICING ->
     calculate_cost p c m
     = Returns ((inject_Z p / 1000) * prompt pr + (inject_Z c / 1000) * completion pr))
  /\
  ((forall pr, ~ In (m, pr) MODEL_PRICING) ->
   forall before name pr after,
     MODEL_PRICING = (before ++ (name, pr) :: after)%list ->
     occurs_in name m ->
     (forall name' pr', In (name', pr') before -> ~ occurs_in name' m) ->
     calculate_cost p c m
     = Returns ((inject_Z p / 1000) * prompt pr + (inject_Z c / 1000) * completion pr))
  /\
  ((forall pr, ~ In (m, pr) MODEL_PRICING) ->
   (forall name pr, In (name, pr) MODEL_PRICING -> ~ occurs_in name m) ->
   calculate_cost p c m = Raises ValueError).
Proof.
  unfold calculate_cost. split; [| split].
  - intros pr Hin. rewrite (MODEL_PRICING_exact _ _ Hin). reflexivity.
  - intros Hno before name pr after Htab Hocc Hfirst.
    apply get_None in Hno. rewrite Hno.
    rewrite (partial_match_first _ _ _ _ _ _ Htab Hocc Hfirst). reflexivity.
  - intros Hno Hnone. apply get_None in Hno. rewrite Hno.
    rewrite (partial_match_none _ _ Hnone). reflexivity.
Qed.

(** C5 as the specification words it fails: ["ft:gpt-3.5-turbo"] is no
    entry of the table and no entry name is how it starts, yet a cost is
    returned (at the price of ["gpt-3.5-turbo"], which occurs inside
    it). *)
Lemma substring_match_is_not_prefix :
  (forall pr, ~ In ("ft:gpt-3.5-turbo", pr) MODEL_PRICING) /\
  (forall name pr, In (name, pr) MODEL_PRICING -> ~ starts name "ft:gpt-3.5-turbo") /\
  calculate_cost 1000 0 "ft:gpt-3.5-turbo"
  = Returns (cost_with {| prompt := 0.0005; completion := 0.0015 |} 1000 0) /\
  calculate_cost 1000 0 "ft:gpt-3.5-turbo" <> Raises ValueError.
Proof.
  split; [| split; [| split]].
  - apply get_None. reflexivity.
  - intros name pr Hin. rewrite <- prefix_starts.
    unfold MODEL_PRICING in Hin. cbn [In] in Hin.
    repeat (destruct Hin as [[= <- <-] | Hin]; [cbn; discriminate |]).
    contradiction.
  - reflexivity.
  - discriminate.
Qed.

Lemma calculate_cost_lookup_witness :
  calculate_cost 100 200 "gpt-3.5-turbo"
  = Returns ((inject_Z 100 / 1000) * 0.0005 + (inject_Z 200 / 1000) * 0.0015) /\
  calculate_cost 100 200 "gpt-4-turbo-2024-04-09"
  = Returns ((inject_Z 100 / 1000) * 0.03 + (inject_Z 200 / 1000) * 0.06) /\
  calculate_cost 100 200 "claude-3" = Raises ValueError.
Proof.
  split; [| split].
  - destruct (calculate_cost_lookup 100 200 "gpt-3.5-turbo") as (Hexact & _ & _).
    apply (Hexact {| prompt := 0.0005; completion := 0.0015 |}).
    cbn. do 4 right. left. reflexivity.
  - destruct (calculate_cost_lookup 100 200 "gpt-4-turbo-2024-04-09")
      as (_ & Hpart & _).
    assert (Hno : forall pr, ~ In ("gpt-4-turbo-2024-04-09", pr) MODEL_PRICING)
      by (apply get_None; reflexivity).
    apply (Hpart Hno [] "gpt-4" {| prompt := 0.03; completion := 0.06 |}
             (tl MODEL_PRICING) eq_refl).
    + exists "", "-turbo-2024-04-09". reflexivity.
    + intros name' pr' [].
  - destruct (calculate_cost_lookup 100 200 "claude-3") as (_ & _ & Hnone).
    apply Hnone.
    + apply get_None. reflexivity.
    + intros name pr Hin. apply contains_false.
      unfold MODEL_PRICING in Hin. cbn [In] in Hin.
      repeat (destruct Hin as [[= <- <-] | Hin]; [reflexivity |]).
      contradiction.
Defined.

(** ** Cost tracker *)

Lemma get_total_cost_append self c :
  get_total_cost (append_call self c) = get_total_cost self + cost c.
Proof. unfold get_total_cost, append_call. cbn [calls]. apply fold_left_app. Qed.

(** What a call does, by case on the cost lookup and the thresholds. *)
Lemma track_tokens_cases env self r :
  match calculate_cost (req_prompt_tokens r) (req_completion_tokens r) (req_model r) with
  | Raises e => track_tokens env self r = (Raises e, self)
  | Returns c =>
      let self1 := append_call self (call_data r c) in
      let total_cost := get_total_cost self + c in
      let warning_threshold := getenv (COST_WARNING_THRESHOLD env) 10.0 in
      let max_threshold := getenv (COST_MAX_THRESHOLD env) 50.0 in
      if Qle_bool max_threshold total_cost then
        track_tokens env self r = (Raises CostLimitExceeded, self1)
      else if Qle_bool warning_threshold total_cost then
        track_tokens env self r
        = (Returns c, print self1 (Warning total_cost warning_threshold))
      else track_tokens env self r = (Returns c, self1)
  end.
Proof.
  unfold track_tokens.
  destruct (calculate_cost _ _ _) as [c | e]; [| reflexivity].
  cbv zeta. unfold _check_thresholds. rewrite get_total_cost_append.
  cbn [call_data cost].
  destruct (Qle_bool _ _); [reflexivity |].
  destruct (Qle_bool _ _); reflexivity.
Qed.

(** A call that returns has recorded itself, last. *)
Lemma track_tokens_returns env self r c self' :
  track_tokens env self r = (Returns c, self') ->
  calculate_cost (req_prompt_tokens r) (req_completion_tokens r) (req_model r)
  = Returns c /\
  calls self' = (calls self ++ [call_data r c])%list.
Proof.
  intros H. pose proof (track_tokens_cases env self r) as Hc.
  destruct (calculate_cost _ _ _) as [c0 | e].
  - cbv zeta in Hc.
    destruct (Qle_bool _ _); [congruence |].
    destruct (Qle_bool _ _); rewrite Hc in H; injection H as <- <-;
      split; reflexivity.
  - congruence.
Qed.

Lemma total_cost_of_calls (cs : list call) : forall a,
  fold_left (fun acc c => acc + cost c) cs a == a + total (map cost cs).
Proof.
  induction cs as [| c cs IH]; intros a; cbn [fold_left map total fold_right].
  - lra.
  - rewrite IH. fold (total (map cost cs)). lra.
Qed.

Lemma track_all_returned env rs : forall self os self',
  track_all env self rs = (os, self') ->
  Forall returned os ->
  Forall2 (fun r o =>
             calculate_cost (req_prompt_tokens r) (req_completion_tokens r)
               (req_model r) = o) rs os /\
  calls self'
  = (calls self
     ++ map (fun ro => call_data (fst ro) (returned_cost (snd ro))) (combine rs os))%list.
Proof.
  induction rs as [| r rs IH]; intros self os self' Hrun Hall; cbn in Hrun.
  - injection Hrun as <- <-. cbn. rewrite app_nil_r. split; constructor.
  - destruct (track_tokens env self r) as [o self1] eqn:Ht.
    destruct (track_all env self1 rs) as [os1 self2] eqn:Hrest.
    injection Hrun as <- <-. inversion Hall as [| o' os' Ho Hos]; subst.
    destruct o as [c | e]; [| destruct Ho].
    apply track_tokens_returns in Ht. destruct Ht as [Hcost Hcalls].
    destruct (IH _ _ _ Hrest Hos) as [Hf2 Hc2].
    split; [constructor; assumption |].
    rewrite Hc2, Hcalls, <- app_assoc. reflexivity.
Qed.



(** C8.  A call whose cost is computed is recorded first; when the
    session total, the new call included, has reached the hard threshold,
    [CostLimitExceeded] is then raised and the record stays in [calls];
    when the total is below the hard threshold and has reached the
    warning threshold, a warning is printed and the call returns its
    cost; below both thresholds nothing is printed. *)
Theorem thresholds_checked_after_recording env self r c :
  calculate_cost (req_prompt_tokens r) (req_completion_tokens r) (req_model r)
  = Returns c ->
  let total_cost := get_total_cost self + c in
  let warning_threshold := getenv (COST_WARNING_THRESHOLD env) 10.0 in
  let max_threshold := getenv (COST_MAX_THRESHOLD env) 50.0 in
  (max_threshold <= total_cost ->
   exists self',
     track_tokens env self r = (Raises CostLimitExceeded, self') /\
     calls self' = (calls self ++ [call_data r c])%list /\
     stdout self' = stdout self)
  /\
  (total_cost < max_threshold -> warning_threshold <= total_cost ->
   exists self',
     track_tokens env self r = (Returns c, self') /\
     calls self' = (calls self ++ [call_data r c])%list /\
     stdout self' = (stdout self ++ [Warning total_cost warning_threshold])%list)
  /\
  (total_cost < max_threshold -> total_cost < warning_threshold ->
   exists self',
     track_tokens env self r = (Returns c, self') /\
     calls self' = (calls self ++ [call_data r c])%list /\
     stdout self' = stdout self).
Proof.
  intros Hc total_cost warning_threshold max_threshold.
  pose proof (track_tokens_cases env self r) as H. rewrite Hc in H. cbv zeta in H.
  fold total_cost warning_threshold max_threshold in H.
  split; [| split].
  - intros Hmax. apply Qle_bool_iff in Hmax. rewrite Hmax in H.
    eexists. split; [exact H |]. split; reflexivity.
  - intros Hlt Hwarn.
    apply Qlt_not_le in Hlt. rewrite <- Qle_bool_iff in Hlt.
    apply not_true_is_false in Hlt. rewrite Hlt in H.
    apply Qle_bool_iff in Hwarn. rewrite Hwarn in H.
    eexists. split; [exact H |]. split; reflexivity.
  - intros Hlt Hlow.
    apply Qlt_not_le in Hlt. rewrite <- Qle_bool_iff in Hlt.
    apply not_true_is_false in Hlt. rewrite Hlt in H.
    apply Qlt_not_le in Hlow. rewrite <- Qle_bool_iff in Hlow.
    apply not_true_is_false in Hlow. rewrite Hlow in H.
    eexists. split; [exact H |]. split; reflexivity.
Qed.

Lemma thresholds_checked_after_recording_witness :
  (exists self',
     track_tokens CostRuns.unset CostRuns.fresh CostRuns.huge_call
     = (Raises CostLimitExceeded, self') /\
     List.length (calls self') = 1%nat /\ stdout self' = []) /\
  (exists c self',
     track_tokens CostRuns.unset CostRuns.fresh CostRuns.large_call
     = (Returns c, self') /\ c == 12 /\
     List.length (calls self') = 1%nat /\ List.length (stdout self') = 1%nat).
Proof.
  split.
  - destruct (thresholds_checked_after_recording CostRuns.unset CostRuns.fresh
                CostRuns.huge_call _ eq_refl) as (Hstop & _ & _).
    destruct Hstop as (self' & Hrun & Hcalls & Hout).
    + cbn. unfold Qle. cbn. lia.
    + exists self'. split; [exact Hrun |]. rewrite Hcalls, Hout.
      split; reflexivity.
  - destruct (thresholds_checked_after_recording CostRuns.unset CostRuns.fresh
                CostRuns.large_call _ eq_refl) as (_ & Hwarn & _).
    destruct Hwarn as (self' & Hrun & Hcalls & Hout).
    + cbn. unfold Qlt. cbn. lia.
    + cbn. unfold Qle. cbn. lia.
    + eexists _, self'. split; [exact Hrun |]. rewrite Hcalls, Hout.
      split; [reflexivity |]. split; reflexivity.
Defined.

(** ** Session report *)

Lemma sum_cost_add_to_model by_model c :
  sum_cost (add_to_model by_model c) == sum_cost by_model + cost c.
Proof.
  induction by_model as [| [m st] by_model IH]; cbn [add_to_model].
  - cbn. lra.
  - destruct (String.eqb m (model c)); cbn [sum_cost fold_right snd s_cost].
    + fold (sum_cost by_model). lra.
    + fold (sum_cost (add_to_model by_model c)) (sum_cost by_model).
      rewrite IH. lra.
Qed.

Lemma sum_tokens_add_to_model by_model c :
  sum_tokens (add_to_model by_model c) = (sum_tokens by_model + total_tokens c)%Z.
Proof.
  induction by_model as [| [m st] by_model IH]; cbn [add_to_model].
  - cbn. lia.
  - destruct (String.eqb m (model c)); cbn [sum_tokens fold_right snd s_tokens].
    + fold (sum_tokens by_model). lia.
    + fold (sum_tokens (add_to_model by_model c)) (sum_tokens by_model).
      rewrite IH. lia.
Qed.

(** The grouping loop keeps the two sums in step with the running
    totals. *)
Lemma group_sums cs : forall by_model a n,
  sum_cost by_model == a -> sum_tokens by_model = n ->
  sum_cost (fold_left add_to_model cs by_model)
  == fold_left (fun acc c => acc + cost c) cs a /\
  sum_tokens (fold_left add_to_model cs by_model)
  = fold_left (fun acc c => (acc + total_tokens c)%Z) cs n.
Proof.
  induction cs as [| c cs IH]; intros by_model a n Ha Hn; cbn [fold_left].
  - split; assumption.
  - destruct (IH (add_to_model by_model c) (sum_cost by_model + cost c)
                (sum_tokens by_model + total_tokens c)%Z) as [Hc Ht].
    + apply sum_cost_add_to_model.
    + apply sum_tokens_add_to_model.
    + split.
      * rewrite Hc. rewrite !total_cost_of_calls. rewrite Ha. reflexivity.
      * rewrite Ht, Hn. reflexivity.
Qed.

(** *** The entry of one model *)

Lemma get_add_to_model by_model c m :
  get (add_to_model by_model c) m
  = if String.eqb m (model c) then Some (bump (get by_model m) c)
    else get by_model m.
Proof.
  induction by_model as [| [k st] by_model IH]; cbn [add_to_model get].
  - rewrite (String.eqb_sym (model c) m).
    destruct (String.eqb m (model c)); reflexivity.
  - destruct (String.eqb k (model c)) eqn:Hk; cbn [get].
    + apply String.eqb_eq in Hk. subst k.
      rewrite (String.eqb_sym (model c) m).
      destruct (String.eqb m (model c)); reflexivity.
    + rewrite IH. destruct (String.eqb k m) eqn:Hkm; [| reflexivity].
      apply String.eqb_eq in Hkm. subst k.
      rewrite Hk. reflexivity.
Qed.

Lemma get_group m cs : forall by_model,
  get (fold_left add_to_model cs by_model) m
  = bump_all (get by_model m) (calls_of m cs).
Proof.
  induction cs as [| c cs IH]; intros by_model; cbn [fold_left calls_of filter].
  - reflexivity.
  - rewrite IH, get_add_to_model. fold (calls_of m cs).
    destruct (String.eqb m (model c)); reflexivity.
Qed.

(** The cost of an entry is built by the additions of the loop, in the
    order of the calls. *)
Lemma bump_all_running cs : forall st,
  exists st',
    bump_all (Some st) cs = Some st' /\
    s_cost st' = fold_left (fun acc c => acc + cost c) cs (s_cost st).
Proof.
  induction cs as [| c cs IH]; intros st; cbn [bump_all fold_left].
  - exists st. split; reflexivity.
  - destruct (IH (bump (Some st) c)) as (st' & Hb & Hc).
    exists st'. split; [exact Hb | exact Hc].
Qed.

(** C7, as the code has it.  In every tracker state the token counts of
    the per-model breakdown of the session report sum to the
    [total_tokens] of the report, which is the total of the session.
    The costs do not: the cost of a model's entry is the sum of the
    unrounded costs of the calls of that model, added one by one from
    0.0 in call order, whereas the [total_cost] of the report of a
    session with calls is [round(get_total_cost(), 4)]. *)
Theorem report_breakdown_sums self :
  breakdown_tokens (get_session_report self)
  = r_total_tokens (get_session_report self) /\
  r_total_tokens (get_session_report self) = get_total_tokens self /\
  (calls self <> [] ->
   r_total_cost (get_session_report self) = Round (get_total_cost self) 4) /\
  forall m st,
    get (breakdown (get_session_report self)) m = Some st ->
    s_cost st
    = fold_left (fun acc c => acc + cost c) (calls_of m (calls self)) 0.0.
Proof.
  unfold get_session_report, get_total_cost, get_total_tokens.
  destruct (calls self) as [| c cs] eqn:Hcalls.
  - cbn. repeat split; try reflexivity; [contradiction | discriminate].
  - unfold breakdown_tokens, breakdown.
    cbn [r_by_model r_total_cost r_total_tokens].
    destruct (group_sums (c :: cs) [] 0 0%Z) as [_ Ht];
      [reflexivity | reflexivity |].
    split; [exact Ht |]. split; [reflexivity |]. split; [reflexivity |].
    intros m st. unfold group_by_model. rewrite get_group. cbn [get].
    destruct (calls_of m (c :: cs)) as [| c' cs']; [discriminate |].
    cbn [bump_all fold_left bump].
    destruct (bump_all_running cs'
                {| s_calls := 0 + 1; s_cost := 0.0 + cost c';
                   s_tokens := 0 + total_tokens c' |}) as (st' & Hb & Hc).
    fold (bump_all (Some {| s_calls := 0 + 1; s_cost := 0.0 + cost c';
                            s_tokens := 0 + total_tokens c' |}) cs').
    rewrite Hb. intros [= <-]. exact Hc.
Qed.

(** C7 as the specification words it fails: after one call with a single
    prompt token the breakdown holds its cost, 0.0000005, while the
    [total_cost] of the report is [round(0.0000005, 4)]; a number of
    four decimals is not 0.0000005, whatever the built-in makes of it. *)
Lemma report_total_is_rounded :
  exists x,
    breakdown_cost
      (get_session_report (after_one CostRuns.unset CostRuns.fresh CostRuns.tiny_call))
    == 0.0000005 /\
    r_total_cost
      (get_session_report (after_one CostRuns.unset CostRuns.fresh CostRuns.tiny_call))
    = Round x 4 /\
    x == 0.0000005 /\
    forall round : Q -> Z -> Q,
      decimals 4 (round x 4%Z) ->
      ~ (breakdown_cost
           (get_session_report
              (after_one CostRuns.unset CostRuns.fresh CostRuns.tiny_call))
         == value round
              (r_total_cost
                 (get_session_report
                    (after_one CostRuns.unset CostRuns.fresh CostRuns.tiny_call)))).
Proof.
  eexists. split; [reflexivity |]. split; [vm_compute; reflexivity |].
  split; [reflexivity |].
  intros round [k Hk] H.
  change (breakdown_cost _) with (0.0 + (0 + (1 / 1000 * 0.0005 + 0 / 1000 * 0.0015)) + 0)
    in H.
  cbn [value] in H.
  rewrite <- H in Hk.
  assert (Hz : inject_Z k == 5 # 1000) by (rewrite <- Hk; reflexivity).
  unfold Qeq in Hz. cbn in Hz. lia.
Qed.

End CostFacts.

(** ** Rate limiter *)

Section LimiterFacts.
Import Clock RateLimiter.

Lemma popleft_while_length bound reqs :
  (List.length (popleft_while bound reqs) <= List.length reqs)%nat.
Proof.
  induction reqs as [| r rs IH]; cbn [popleft_while]; [lia |].
  destruct (Qltb r bound); cbn [List.length] in *; lia.
Qed.

(** What the pruning loop leaves starts with a timestamp inside the
    window. *)
Lemma popleft_while_head bound reqs r rs :
  popleft_while bound reqs = r :: rs -> bound <= r.
Proof.
  induction reqs as [| r0 rs0 IH]; cbn [popleft_while]; [discriminate |].
  destruct (Qltb r0 bound) eqn:Hlt; [exact IH |].
  intros [= <- <-]. apply Qltb_ge. exact Hlt.
Qed.

Lemma popleft_while_shorter bound r rs r1 rs1 :
  popleft_while bound (r :: rs) = r1 :: rs1 ->
  r <= bound -> bound < r1 ->
  (List.length (r1 :: rs1) < List.length (r :: rs))%nat.
Proof.
  cbn [popleft_while]. destruct (Qltb r bound) eqn:Hlt.
  - intros H _ _. rewrite <- H.
    pose proof (popleft_while_length bound rs). cbn [List.length]. lia.
  - intros [= <- <-] Hle Hgt. lra.
Qed.

Lemma time_time_monotone w :
  monotone w ->
  now w <= fst (time_time w) /\
  now (snd (time_time w)) = fst (time_time w) /\
  monotone (snd (time_time w)).
Proof.
  unfold monotone, time_time. cbn. intros H.
  split; [| split; [reflexivity | exact H]].
  specialize (H (reads w)). lra.
Qed.

(** The body of [acquire], once. *)
Lemma acquire_unfold fuel N W reqs w :
  acquire (S fuel) {| max_requests := N; time_window := W; requests := reqs |} w
  = let pruned := popleft_while (fst (time_time w) - W) reqs in
    let self1 := {| max_requests := N; time_window := W; requests := pruned |} in
    let recorded :=
      Some (ReturnedNone,
            {| max_requests := N; time_window := W;
               requests := pruned ++ [fst (time_time (snd (time_time w)))] |},
            snd (time_time (snd (time_time w)))) in
    if (N <=? Z.of_nat (List.length pruned))%Z then
      match pruned with
      | [] => Some (RaisedIndexError, self1, snd (time_time w))
      | oldest_request :: _ =>
          if Qltb 0 (W - (fst (time_time w) - oldest_request)) then
            acquire fuel self1
              (time_sleep (W - (fst (time_time w) - oldest_request))
                 (snd (time_time w)))
          else recorded
      end
    else recorded.
Proof.
  cbn [acquire]. destruct (time_time w) as [t w1]. cbn [fst snd].
  cbn [with_requests max_requests time_window requests]. unfold record.
  cbn [with_requests max_requests time_window requests].
  destruct (time_time w1) as [t2 w2]. cbn [fst snd]. reflexivity.
Qed.

(** Once the caller has slept until the oldest timestamp is a full
    window old, fuel beyond the length of the deque is enough. *)
Lemma acquire_after_sleep fuel : forall self w,
  monotone w ->
  (forall oldest rest,
     requests self = oldest :: rest -> oldest + time_window self <= now w) ->
  (List.length (requests self) < fuel)%nat ->
  exists res self' w', acquire fuel self w = Some (res, self', w').
Proof.
  induction fuel as [| fuel IH]; intros [N W reqs] w Hmono Hold Hfuel; [lia |].
  cbn [requests time_window] in *.
  destruct (time_time_monotone w Hmono) as (Hnow & Hread & Hmono1).
  rewrite acquire_unfold. cbv zeta.
  destruct (time_time w) as [t w1]. cbn [fst snd] in *.
  destruct (N <=? _)%Z; [| eauto].
  destruct (popleft_while (t - W) reqs) as [| oldest1 rest1] eqn:Hprune; [eauto |].
  destruct (Qltb 0 (W - (t - oldest1))) eqn:Hwait; [| eauto].
  apply Qltb_lt in Hwait. apply IH.
  - exact Hmono1.
  - cbn [requests time_window time_sleep now].
    intros oldest rest [= <- <-]. rewrite Hread. lra.
  - cbn [requests]. destruct reqs as [| r rs]; [discriminate |].
    pose proof (Hold r rs eq_refl) as Hr.
    assert (Hle : r <= t - W) by lra.
    assert (Hgt : t - W < oldest1) by lra.
    pose proof (popleft_while_shorter _ _ _ _ _ Hprune Hle Hgt) as Hsh. lia.
Qed.

(** [acquire] returns: whatever the limiter holds and whatever the
    clock does later, the recursion ends within [enough self] calls. *)
Lemma acquire_total self w :
  monotone w ->
  exists res self' w', acquire (enough self) self w = Some (res, self', w').
Proof.
  destruct self as [N W reqs]. intros Hmono. unfold enough.
  cbn [requests]. destruct (time_time_monotone w Hmono) as (Hnow & Hread & Hmono1).
  rewrite acquire_unfold. cbv zeta.
  destruct (time_time w) as [t w1]. cbn [fst snd] in *.
  destruct (N <=? _)%Z; [| eauto].
  destruct (popleft_while (t - W) reqs) as [| oldest1 rest1] eqn:Hprune; [eauto |].
  destruct (Qltb 0 (W - (t - oldest1))) eqn:Hwait; [| eauto].
  apply Qltb_lt in Hwait. apply acquire_after_sleep.
  - exact Hmono1.
  - cbn [requests time_window time_sleep now].
    intros oldest rest [= <- <-]. rewrite Hread. lra.
  - cbn [requests]. rewrite <- Hprune.
    pose proof (popleft_while_length (t - W) reqs). lia.
Qed.

(** After a call that returns, the deque holds more than [max_requests]
    timestamps only if its oldest one is a whole window older than the
    reading taken on entry, the very case in which [wait_time] is zero. *)
Lemma acquire_overfull_only_at_boundary fuel : forall N W reqs w self' w',
  acquire fuel {| max_requests := N; time_window := W; requests := reqs |} w
  = Some (ReturnedNone, self', w') ->
  exists t pruned stamp,
    requests self' = pruned ++ [stamp] /\
    ((Z.of_nat (List.length pruned) < N)%Z \/
     exists oldest rest, pruned = oldest :: rest /\ oldest == t - W).
Proof.
  induction fuel as [| fuel IH]; intros N W reqs w self' w' Hrun; [discriminate |].
  rewrite acquire_unfold in Hrun. cbv zeta in Hrun.
  destruct (time_time w) as [t w1]. cbn [fst snd] in Hrun.
  destruct (N <=? _)%Z eqn:Hfull.
  - destruct (popleft_while (t - W) reqs) as [| oldest rest] eqn:Hprune;
      [discriminate |].
    destruct (Qltb 0 (W - (t - oldest))) eqn:Hwait.
    + apply IH in Hrun. exact Hrun.
    + injection Hrun as <- <-. exists t, (oldest :: rest). eexists.
      split; [reflexivity |]. right. exists oldest, rest. split; [reflexivity |].
      apply Qltb_ge in Hwait. apply popleft_while_head in Hprune. lra.
  - injection Hrun as <- <-. exists t. eexists _, _. split; [reflexivity |].
    left. apply Z.leb_gt in Hfull. exact Hfull.
Qed.

(** *** Sequential calls under a clock that advances *)

Lemma popleft_while_split bound reqs :
  exists popped,
    reqs = popped ++ popleft_while bound reqs /\
    Forall (fun r => r < bound) popped.
Proof.
  induction reqs as [| r rs (popped & Hrs & Hpop)]; cbn [popleft_while].
  - exists []. split; [reflexivity | constructor].
  - destruct (Qltb r bound) eqn:Hlt.
    + exists (r :: popped). split.
      * cbn. rewrite <- Hrs. reflexivity.
      * constructor; [apply Qltb_lt; exact Hlt | exact Hpop].
    + exists []. split; [reflexivity | constructor].
Qed.

Lemma spaced_snoc n W stamps s :
  (1 <= n)%nat ->
  spaced n W stamps ->
  (forall i x,
     nth_error stamps i = Some x -> (i + n <= List.length stamps)%nat ->
     x + W < s) ->
  spaced n W (stamps ++ [s]).
Proof.
  intros Hn Hsp Hnew i j x y Hx Hy Hij.
  assert (Hj : (j < List.length (stamps ++ [s]))%nat)
    by (apply nth_error_Some; congruence).
  rewrite length_app in Hj. cbn [List.length] in Hj.
  destruct (Nat.lt_ge_cases j (List.length stamps)) as [Hlt | Hge].
  - rewrite nth_error_app1 in Hx, Hy by lia. exact (Hsp i j x y Hx Hy Hij).
  - assert (Hjl : j = List.length stamps) by lia. subst j.
    rewrite nth_error_app2, Nat.sub_diag in Hy by lia. injection Hy as <-.
    rewrite nth_error_app1 in Hx by lia. apply (Hnew i x Hx). lia.
Qed.

(** In a list whose entries from place [m] on are later than [t], at
    most [m] entries lie in the window that ends at [t]. *)
Lemma late_entries_out W t stamps : forall m,
  (forall j y, nth_error stamps j = Some y -> (m <= j)%nat -> t < y) ->
  (List.length (in_closed_window W t stamps) <= m)%nat.
Proof.
  induction stamps as [| a l IH]; intros m Hlate; [cbn; lia |].
  unfold in_closed_window in *. cbn [filter].
  destruct m as [| m].
  - assert (Ha : Qle_bool a t = false).
    { apply not_true_is_false. rewrite Qle_bool_iff.
      apply Qlt_not_le. apply (Hlate 0%nat a eq_refl). lia. }
    rewrite Ha, andb_false_r. apply IH.
    intros j y Hy _. apply (Hlate (S j) y Hy). lia.
  - assert (Hl : (List.length
                    (filter (fun r => Qle_bool (t - W) r && Qle_bool r t) l)
                  <= m)%nat).
    { apply IH. intros j y Hy Hm. apply (Hlate (S j) y Hy). lia. }
    destruct (_ && _); cbn [List.length]; lia.
Qed.

(** Spaced timestamps: no window of length [W] holds more than [n]. *)
Lemma spaced_window n W t stamps :
  (1 <= n)%nat -> spaced n W stamps ->
  (List.length (in_closed_window W t stamps) <= n)%nat.
Proof.
  intros Hn. induction stamps as [| a l IH]; intros Hsp; [cbn; lia |].
  assert (Htail : spaced n W l).
  { intros i j x y Hx Hy Hij. apply (Hsp (S i) (S j) x y Hx Hy). lia. }
  unfold in_closed_window in *. cbn [filter].
  destruct (Qle_bool (t - W) a) eqn:Hin; cbn [andb]; [| apply IH; exact Htail].
  apply Qle_bool_iff in Hin.
  assert (Hl : (List.length (in_closed_window W t l) <= n - 1)%nat).
  { apply late_entries_out. intros j y Hy Hj.
    assert (Hay : a + W < y) by (apply (Hsp 0%nat (S j) a y eq_refl Hy); lia).
    lra. }
  unfold in_closed_window in Hl.
  destruct (Qle_bool a t); cbn [List.length]; lia.
Qed.

Lemma settled_init N W w : settled [] (init N W) w.
Proof.
  unfold settled, init. cbn [requests max_requests time_window List.length].
  split; [exists []; split; [reflexivity | constructor] |].
  split; [intros i j x y Hx; destruct i; discriminate |].
  split; [lia |]. intros H. lia.
Qed.

(** One call keeps what holds between calls, and returns normally. *)
Lemma acquire_settled fuel : forall N W reqs w stamps res self' w',
  (1 <= N)%Z -> advancing w ->
  settled stamps {| max_requests := N; time_window := W; requests := reqs |} w ->
  acquire fuel {| max_requests := N; time_window := W; requests := reqs |} w
  = Some (res, self', w') ->
  res = ReturnedNone /\ max_requests self' = N /\ time_window self' = W /\
  advancing w' /\
  settled (stamps ++ [last (requests self') 0]) self' w'.
Proof.
  induction fuel as [| fuel IH];
    intros N W reqs w stamps res self' w' HN Hadv Hset Hrun; [discriminate |].
  destruct Hset as ((dropped & Hst & Hdrop) & Hsp & Hlen & Hover).
  cbn [requests max_requests time_window] in *.
  rewrite acquire_unfold in Hrun. cbv zeta in Hrun.
  unfold time_time in Hrun. cbn [fst snd now reads elapse] in Hrun.
  set (t := now w + elapse w (reads w)) in *.
  set (s := t + elapse w (S (reads w))) in *.
  assert (Ht : now w < t) by (pose proof (Hadv (reads w)); subst t; lra).
  assert (Hs : t < s) by (pose proof (Hadv (S (reads w))); subst s; lra).
  destruct (popleft_while_split (t - W) reqs) as (popped & Hreqs & Hpop).
  set (pruned := popleft_while (t - W) reqs) in *.
  assert (Hlenp : (List.length pruned <= Z.to_nat N)%nat).
  { destruct (le_gt_dec (List.length reqs) (Z.to_nat N)) as [Hle | Hgt].
    - pose proof (popleft_while_length (t - W) reqs). fold pruned in H. lia.
    - destruct reqs as [| oldest rest]; [cbn in Hgt; lia |].
      pose proof (Hover Hgt oldest rest eq_refl) as Hold.
      assert (Hlt : Qltb oldest (t - W) = true) by (apply Qltb_lt; lra).
      subst pruned. cbn [popleft_while]. rewrite Hlt.
      pose proof (popleft_while_length (t - W) rest).
      cbn [List.length] in Hlen. lia. }
  assert (Hdp : Forall (fun d => d + W < t) (dropped ++ popped)).
  { apply Forall_app. split.
    - revert Hdrop. apply Forall_impl. intros d Hd. lra.
    - revert Hpop. apply Forall_impl. intros d Hd. lra. }
  assert (Hstamps : stamps = (dropped ++ popped) ++ pruned)
    by (rewrite Hst, Hreqs at 1; apply app_assoc).
  assert (Hrecord :
            (List.length pruned < Z.to_nat N)%nat \/
            (exists oldest rest, pruned = oldest :: rest /\ oldest + W <= t) ->
            res = ReturnedNone ->
            self' = {| max_requests := N; time_window := W;
                       requests := pruned ++ [s] |} ->
            w' = {| now := s; reads := S (S (reads w)); elapse := elapse w |} ->
            res = ReturnedNone /\ max_requests self' = N /\ time_window self' = W /\
            advancing w' /\
            settled (stamps ++ [last (requests self') 0]) self' w').
  { intros Hcase -> -> ->. cbn [requests max_requests time_window].
    rewrite last_last.
    split; [reflexivity |]. split; [reflexivity |]. split; [reflexivity |].
    split; [exact Hadv |].
    unfold settled. cbn [requests max_requests time_window now].
    split; [| split; [| split]].
    - exists (dropped ++ popped). split.
      + rewrite Hstamps, <- app_assoc. reflexivity.
      + revert Hdp. apply Forall_impl. intros d Hd. lra.
    - apply spaced_snoc; [lia | exact Hsp |].
      intros i x Hx Hi. rewrite Hstamps in Hx, Hi. rewrite length_app in Hi.
      destruct (Nat.lt_ge_cases i (List.length (dropped ++ popped))) as [Hlt | Hge].
      + rewrite nth_error_app1 in Hx by exact Hlt.
        apply nth_error_In in Hx.
        pose proof (proj1 (Forall_forall _ _) Hdp x Hx) as Hd. cbn in Hd. lra.
      + destruct Hcase as [Hless | (oldest & rest & Hpr & Hold)]; [lia |].
        rewrite nth_error_app2 in Hx by exact Hge.
        replace (i - List.length (dropped ++ popped))%nat with 0%nat in Hx by lia.
        rewrite Hpr in Hx. injection Hx as <-. lra.
    - rewrite length_app. cbn [List.length]. lia.
    - rewrite length_app. cbn [List.length]. intros Hfull oldest rest Heq.
      destruct Hcase as [Hless | (oldest0 & rest0 & Hpr & Hold)]; [lia |].
      rewrite Hpr in Heq. injection Heq as <- _. lra. }
  destruct (N <=? Z.of_nat (List.length pruned))%Z eqn:Hfull.
  - apply Z.leb_le in Hfull.
    destruct pruned as [| oldest rest] eqn:Hpr; [cbn in Hfull; lia |].
    destruct (Qltb 0 (W - (t - oldest))) eqn:Hwait.
    + apply Qltb_lt in Hwait.
      apply (IH _ _ _ _ stamps _ _ _ HN) in Hrun; [exact Hrun | exact Hadv |].
      unfold settled. cbn [requests max_requests time_window now time_sleep].
      split; [| split; [exact Hsp | split; [lia | intros H; lia]]].
      exists (dropped ++ popped). split; [exact Hstamps |].
      revert Hdp. apply Forall_impl. intros d Hd. lra.
    + apply Qltb_ge in Hwait. injection Hrun as <- <- <-.
      apply Hrecord; try reflexivity.
      right. exists oldest, rest. split; [reflexivity | lra].
  - apply Z.leb_gt in Hfull. injection Hrun as <- <- <-.
    apply Hrecord; try reflexivity. left. lia.
Qed.

(** With [max_requests >= 1] and a clock of which no two readings are
    equal, any number of sequential calls return, and no window of
    length [time_window], its two ends included, ever holds more than
    [max_requests] of the timestamps recorded. *)
Lemma acquire_logged_settled k : forall self w stamps,
  (1 <= max_requests self)%Z -> advancing w -> settled stamps self w ->
  exists self' w' stamps',
    acquire_logged k self w stamps = Some (self', w', stamps') /\
    List.length stamps' = (List.length stamps + k)%nat /\
    max_requests self' = max_requests self /\
    time_window self' = time_window self /\
    settled stamps' self' w'.
Proof.
  induction k as [| k IH]; intros self w stamps HN Hadv Hset.
  - exists self, w, stamps. cbn [acquire_logged].
    split; [reflexivity |]. split; [lia |].
    split; [reflexivity |]. split; [reflexivity | exact Hset].
  - cbn [acquire_logged].
    assert (Hmono : monotone w) by (intros i; specialize (Hadv i); lra).
    destruct (acquire_total self w Hmono) as (res & self1 & w1 & Hrun).
    rewrite Hrun. destruct self as [N W reqs].
    destruct (acquire_settled _ _ _ _ _ _ _ _ _ HN Hadv Hset Hrun)
      as (-> & HN1 & HW1 & Hadv1 & Hset1).
    cbn [max_requests time_window] in *.
    destruct (IH self1 w1 _ ltac:(rewrite HN1; exact HN) Hadv1 Hset1)
      as (self' & w' & stamps' & Hlog & Hlen & HN' & HW' & Hset').
    exists self', w', stamps'. split; [exact Hlog |].
    rewrite length_app in Hlen. cbn [List.length] in Hlen.
    split; [lia |]. split; [congruence |]. split; [congruence | exact Hset'].
Qed.

(** X7.  One thread, a fresh [RateLimiter(N, W)] with [N >= 1], and a
    clock of which no two readings are equal: [k] calls of [acquire] in
    a row all return, each records one timestamp, and no window of
    length [W], its two ends included, holds more than [N] of the [k]
    timestamps. *)
Lemma sequential_limit_when_clock_advances N W k w :
  (1 <= N)%Z -> advancing w ->
  exists self' w' stamps,
    acquire_logged k (init N W) w [] = Some (self', w', stamps) /\
    List.length stamps = k /\
    forall t, (Z.of_nat (List.length (in_closed_window W t stamps)) <= N)%Z.
Proof.
  intros HN Hadv.
  destruct (acquire_logged_settled k (init N W) w [] HN Hadv (settled_init N W w))
    as (self' & w' & stamps & Hlog & Hlen & HN' & HW' & Hset).
  exists self', w', stamps. split; [exact Hlog |]. split; [exact Hlen |].
  intros t. destruct Hset as (_ & Hsp & _).
  cbn [init max_requests time_window] in HN', HW'. rewrite HN', HW' in Hsp.
  pose proof (spaced_window (Z.to_nat N) W t stamps ltac:(lia) Hsp). lia.
Qed.

(** *** One statement at a time *)

Lemma reaches_refl a : reaches a a.
Proof. exists 0%nat. destruct a as [[self w] p]. reflexivity. Qed.

Lemma steps_add k1 : forall k2 self w p,
  steps (k1 + k2) self w p
  = let '(self1, w1, p1) := steps k1 self w p in steps k2 self1 w1 p1.
Proof.
  induction k1 as [| k1 IH]; intros k2 self w p; cbn [Nat.add steps].
  - reflexivity.
  - destruct (step self w p) as [[self1 w1] p1]. apply IH.
Qed.

Lemma reaches_trans a b c : reaches a b -> reaches b c -> reaches a c.
Proof.
  destruct a as [[sa wa] pa], b as [[sb wb] pb].
  intros [k1 H1] [k2 H2]. exists (k1 + k2)%nat.
  rewrite steps_add, H1. exact H2.
Qed.

Lemma reaches_step self w p : reaches (self, w, p) (step self w p).
Proof.
  exists 1%nat. cbn [steps]. destruct (step self w p) as [[s1 w1] p1]. reflexivity.
Qed.

(** The statements of the [while] loop amount to [popleft_while]. *)
Lemma reaches_pruned N W w t reqs :
  reaches ({| max_requests := N; time_window := W; requests := reqs |}, w, AtPrune t)
          ({| max_requests := N; time_window := W;
              requests := popleft_while (t - W) reqs |}, w, AtCheck t).
Proof.
  induction reqs as [| r rs IH].
  - exact (reaches_step
             {| max_requests := N; time_window := W; requests := [] |}
             w (AtPrune t)).
  - cbn [popleft_while]. destruct (Qltb r (t - W)) eqn:Hlt.
    + eapply reaches_trans; [apply reaches_step |].
      cbn [step requests time_window]. rewrite Hlt. exact IH.
    + pose proof (reaches_step
                    {| max_requests := N; time_window := W; requests := r :: rs |}
                    w (AtPrune t)) as H.
      cbn [step requests time_window] in H. rewrite Hlt in H. exact H.
Qed.

(** A thread that runs alone does, statement by statement, what
    [acquire] does. *)
Lemma acquire_reaches fuel : forall N W reqs w res self' w',
  acquire fuel {| max_requests := N; time_window := W; requests := reqs |} w
  = Some (res, self', w') ->
  reaches ({| max_requests := N; time_window := W; requests := reqs |}, w, AtEntry)
          (self', w', final_pc res).
Proof.
  induction fuel as [| fuel IH]; intros N W reqs w res self' w' Hrun; [discriminate |].
  rewrite acquire_unfold in Hrun. cbv zeta in Hrun.
  eapply reaches_trans; [apply reaches_step |]. cbn [step].
  destruct (time_time w) as [t w1]. cbn [fst snd] in Hrun.
  eapply reaches_trans; [apply reaches_pruned |].
  eapply reaches_trans; [apply reaches_step |].
  cbn [step max_requests requests].
  destruct (N <=? _)%Z.
  - eapply reaches_trans; [apply reaches_step |]. cbn [step requests time_window].
    destruct (popleft_while (t - W) reqs) as [| oldest rest].
    + injection Hrun as <- <- <-. apply reaches_refl.
    + destruct (Qltb 0 (W - (t - oldest))).
      * apply IH. exact Hrun.
      * injection Hrun as <- <- <-.
        eapply reaches_trans; [apply reaches_step |]. apply reaches_refl.
  - injection Hrun as <- <- <-.
    eapply reaches_trans; [apply reaches_step |]. apply reaches_refl.
Qed.

(** *** The cooperative limiter *)

(** Whenever the cooperative limiter has to wait, the call never
    returns: it sleeps holding [self.lock], then awaits the same lock in
    the nested [self.acquire()], and records nothing. *)
Lemma async_acquire_blocks fuel N W reqs w oldest rest :
  popleft_while (fst (time_time w) - W) reqs = oldest :: rest ->
  (N <= Z.of_nat (List.length (oldest :: rest)))%Z ->
  fst (time_time w) - W < oldest ->
  AsyncRateLimiter.acquire (S (S fuel))
    {| AsyncRateLimiter.max_requests := N; AsyncRateLimiter.time_window := W;
       AsyncRateLimiter.requests := reqs; AsyncRateLimiter.lock := false |} w
  = Some (AsyncRateLimiter.Blocked,
          {| AsyncRateLimiter.max_requests := N; AsyncRateLimiter.time_window := W;
             AsyncRateLimiter.requests := oldest :: rest;
             AsyncRateLimiter.lock := true |},
          time_sleep (W - (fst (time_time w) - oldest)) (snd (time_time w))).
Proof.
  intros Hprune Hfull Hin. cbn [AsyncRateLimiter.acquire AsyncRateLimiter.lock].
  destruct (time_time w) as [t w1]. cbn [fst snd] in *.
  cbn [AsyncRateLimiter.with_lock AsyncRateLimiter.with_requests
       AsyncRateLimiter.max_requests AsyncRateLimiter.time_window
       AsyncRateLimiter.requests AsyncRateLimiter.lock].
  rewrite Hprune. apply Z.leb_le in Hfull. rewrite Hfull.
  assert (Hw : Qltb 0 (W - (t - oldest)) = true) by (apply Qltb_lt; lra).
  rewrite Hw. reflexivity.
Qed.

(** C1, on the code.  Sequential calls on a limiter of one request per
    second.  Threaded: the clock reads 0 for the first call and 1 for
    the second and the third; the second call finds [wait_time = 0] and
    records, the third finds the same and records again, so two
    timestamps equal to 1 lie in the trailing second that ends at 1.
    Cooperative: the second call starts half a second after the first;
    it sleeps, then blocks for ever on the lock it holds, so it never
    evaluates the window again and never records. *)
Theorem acquire_exceeds_limit_or_blocks :
  (exists self' w',
     acquire_many 3 LimiterRuns.one_per_second LimiterRuns.same_reading
     = Some (self', w') /\
     Forall2 Qeq (requests self') [0; 1; 1] /\
     now w' == 1 /\
     List.length (in_window (time_window self') (now w') (requests self')) = 2%nat /\
     max_requests self' = 1%Z)
  /\
  (exists self1 w1 self2 w2,
     AsyncRateLimiter.acquire 2 LimiterRuns.async_one_per_second
       LimiterRuns.half_window_later
     = Some (AsyncRateLimiter.ReturnedNone, self1, w1) /\
     AsyncRateLimiter.lock self1 = false /\
     (forall fuel,
        AsyncRateLimiter.acquire (S (S fuel)) self1 w1
        = Some (AsyncRateLimiter.Blocked, self2, w2)) /\
     AsyncRateLimiter.requests self2 = AsyncRateLimiter.requests self1 /\
     AsyncRateLimiter.lock self2 = true).
Proof.
  split.
  - eexists _, _. split; [vm_compute; reflexivity |].
    split; [repeat constructor; reflexivity |].
    split; [reflexivity |]. split; reflexivity.
  - eexists _, _, _, _. split; [vm_compute; reflexivity |].
    split; [reflexivity |]. split.
    + intros fuel.
      apply (async_acquire_blocks fuel 1 1.0 [0 + 0 + 0]
               {| now := 0 + 0 + 0; reads := 2;
                  elapse := elapse LimiterRuns.half_window_later |}
               (0 + 0 + 0) []).
      * reflexivity.
      * cbn. lia.
      * reflexivity.
    + split; reflexivity.
Qed.

(** C9, on the code.  [RateLimiter] has no lock.  Two threads enter
    [acquire] on a fresh limiter of one request per second; each passes
    the test of the limit before the other records, and both record,
    within a few milliseconds.  When the same two calls are made one
    after the other, the second sleeps and records at 1.004, more than a
    window after the first, whose timestamp it has discarded. *)
Theorem unlocked_threads_race :
  threads (run LimiterRuns.both_check_first LimiterRuns.two_threads)
  = [Finished; Finished] /\
  Forall2 Qeq
    (requests (shared (run LimiterRuns.both_check_first LimiterRuns.two_threads)))
    [0.003; 0.004] /\
  List.length
    (in_window 1.0 0.004
       (requests (shared (run LimiterRuns.both_check_first LimiterRuns.two_threads))))
  = 2%nat /\
  max_requests (shared (run LimiterRuns.both_check_first LimiterRuns.two_threads))
  = 1%Z /\
  (exists self' w',
     acquire_many 2 (shared LimiterRuns.two_threads) (clock LimiterRuns.two_threads)
     = Some (self', w') /\
     Forall2 Qeq (requests self') [1.004]).
Proof.
  split; [reflexivity |].
  split; [repeat constructor; reflexivity |].
  split; [reflexivity |]. split; [reflexivity |].
  eexists _, _. split; [vm_compute; reflexivity |].
  repeat constructor; reflexivity.
Qed.

End LimiterFacts.

(** * Further properties *)

(** ** Retry: bounds, other exits, the two decorators *)

Section RetryMore.
Import Retry.
Variables A E : Type.
Variable func : nat -> outcome A E.
Variable random : nat -> Q.
Variable cfg : config E.

(** A run started with [n] iterations left at attempt number [attempt],
    as the loop of [wrapper] does. *)
Lemma attempts_bounded fl n :
  forall attempt delay w,
    (attempt + Z.of_nat n = max_retries cfg + 1)%Z ->
    (invocations (snd (attempts fl func random cfg n attempt delay w))
     <= invocations w + n)%nat /\
    exists m, (m <= n - 1)%nat /\
      slept (snd (attempts fl func random cfg n attempt delay w))
      = slept w ++ sleeps_from random cfg m delay (draws w).
Proof.
  induction n as [| n IH]; intros attempt delay w Hinv.
  - cbn. split; [lia |]. exists 0%nat. cbn. rewrite app_nil_r. split; [lia | reflexivity].
  - assert (Hstop : forall w0 : world E,
              invocations w0 = S (invocations w) -> slept w0 = slept w ->
              (invocations w0 <= invocations w + S n)%nat /\
              exists m, (m <= S n - 1)%nat /\
                slept w0 = slept w ++ sleeps_from random cfg m delay (draws w)).
    { intros w0 Hi Hs. split; [lia |]. exists 0%nat. cbn.
      rewrite app_nil_r. split; [lia | exact Hs]. }
    rewrite attempts_unfold.
    destruct (func (invocations w)) as [v | e]; [apply Hstop; reflexivity |].
    destruct (negb (retryable_exceptions cfg e)); [apply Hstop; reflexivity |].
    destruct (attempt =? max_retries cfg)%Z eqn:Hlast; [apply Hstop; reflexivity |].
    apply Z.eqb_neq in Hlast.
    destruct (sleep fl _ _) as [w4 |] eqn:Hsleep; [| apply Hstop; reflexivity].
    apply sleep_warned in Hsleep. subst w4.
    destruct (IH (attempt + 1)%Z (delay * exponential_base cfg)
                (retried random cfg attempt e delay w)) as (Hi & m & Hm & Hs);
      [lia |].
    cbn [retried invocations slept draws] in Hi, Hs. split; [lia |].
    exists (S m). split; [lia |]. rewrite Hs. cbn [sleeps_from].
    rewrite <- app_assoc. reflexivity.
Qed.

Lemma Qsum_bounded (bound : Q) (l : list Q) :
  Forall (fun d => d <= bound) l ->
  Qsum l <= inject_Z (Z.of_nat (List.length l)) * bound.
Proof.
  induction 1 as [| d l Hd Hl IH]; cbn [Qsum fold_right List.length].
  - change (inject_Z (Z.of_nat 0)) with 0. rewrite Qmult_0_l. apply Qle_refl.
  - fold (Qsum l). rewrite Nat2Z.inj_succ, <- Z.add_1_r, inject_Z_plus.
    change (inject_Z 1) with 1. rewrite Qmult_plus_distr_l, Qmult_1_l. lra.
Qed.

(** X1.  Whatever the wrapped function does, one call of the wrapper
    invokes it at most [max_retries + 1] times and sleeps at most
    [max_retries] times; when [max_delay] is not negative the time slept
    is at most [max_retries * max_delay] in all. *)
Theorem retry_effort_bounded fl w :
  (0 <= max_retries cfg)%Z ->
  (invocations (snd (wrapper fl func random cfg w))
   <= invocations w + Z.to_nat (max_retries cfg + 1))%nat /\
  exists l,
    slept (snd (wrapper fl func random cfg w)) = slept w ++ l /\
    (Z.of_nat (List.length l) <= max_retries cfg)%Z /\
    (0 <= max_delay cfg -> Qsum l <= inject_Z (max_retries cfg) * max_delay cfg).
Proof.
  intros Hr. unfold wrapper.
  destruct (attempts_bounded fl (Z.to_nat (max_retries cfg + 1)) 0%Z
              (initial_delay cfg) w) as (Hi & m & Hm & Hs); [lia |].
  split; [exact Hi |].
  exists (sleeps_from random cfg m (initial_delay cfg) (draws w)).
  split; [exact Hs |].
  rewrite sleeps_from_length. split; [lia |].
  intros Hmax.
  pose proof (Qsum_bounded (max_delay cfg) _
                (sleeps_from_bounded E random cfg m (initial_delay cfg) (draws w)))
    as Hsum.
  rewrite sleeps_from_length in Hsum.
  assert (Hle : inject_Z (Z.of_nat m) <= inject_Z (max_retries cfg))
    by (rewrite <- Zle_Qle; lia).
  assert (Hmul : inject_Z (Z.of_nat m) * max_delay cfg
                 <= inject_Z (max_retries cfg) * max_delay cfg)
    by (apply Qmult_le_compat_r; assumption).
  lra.
Qed.



Lemma attempts_agree n :
  forall attempt delay w,
    random_unit random ->
    0 <= delay -> 0 <= exponential_base cfg -> 0 <= max_delay cfg ->
    attempts Threaded func random cfg n attempt delay w
    = attempts Cooperative func random cfg n attempt delay w.
Proof.
  induction n as [| n IH]; intros attempt delay w Hrand Hd Hb Hm; [reflexivity |].
  rewrite !attempts_unfold.
  destruct (func (invocations w)) as [v | e]; [reflexivity |].
  destruct (negb (retryable_exceptions cfg e)); [reflexivity |].
  destruct (attempt =? max_retries cfg)%Z; [reflexivity |].
  rewrite !sleep_accepts;
    [| discriminate | intros _; apply actual_nonneg; assumption].
  apply IH; try assumption. apply Qmult_le_0_compat; assumption.
Qed.

(** X5.  With non-negative [initial_delay], [exponential_base] and
    [max_delay] the two decorators do the same: same result, same
    invocations, same delays, same log. *)
Theorem decorators_agree w :
  random_unit random ->
  0 <= initial_delay cfg -> 0 <= exponential_base cfg -> 0 <= max_delay cfg ->
  retry_with_backoff cfg func random w = async_retry_with_backoff cfg func random w.
Proof.
  intros Hrand Hi Hb Hm. unfold retry_with_backoff, async_retry_with_backoff, wrapper.
  apply attempts_agree; assumption.
Qed.

End RetryMore.

Section RetryMoreRuns.
Import Retry RetryRuns MoreRetryRuns.

Lemma retry_effort_bounded_witness :
  (0 <= max_retries defaults)%Z /\
  (invocations (snd (retry_with_backoff defaults always_fails quarter start)) <= 4)%nat /\
  exists l,
    slept (snd (retry_with_backoff defaults always_fails quarter start)) = l /\
    (Z.of_nat (List.length l) <= 3)%Z /\ Qsum l <= 180.
Proof.
  assert (H0 : (0 <= max_retries defaults)%Z) by (cbn; lia).
  split; [exact H0 |].
  destruct (retry_effort_bounded nat unit always_fails quarter defaults Threaded
              start H0) as (Hi & l & Hl & Hn & Hsum).
  split; [exact Hi |]. exists l. split; [exact Hl |]. split; [exact Hn |].
  assert (Hm : 0 <= max_delay defaults) by (cbn; lra).
  specialize (Hsum Hm).
  change (inject_Z (max_retries defaults) * max_delay defaults)
    with (3 * 60.0) in Hsum.
  lra.
Defined.



Lemma decorators_agree_witness :
  retry_with_backoff defaults third_time_lucky quarter start
  = async_retry_with_backoff defaults third_time_lucky quarter start.
Proof.
  apply (decorators_agree nat unit third_time_lucky quarter defaults start).
  - exact quarter_unit.
  - cbn. lra.
  - cbn. lra.
  - cbn. lra.
Defined.

End RetryMoreRuns.

(** ** Rate limiters: returning, waiting, blocking *)

Section LimiterMore.
Import Clock RateLimiter Waiting.

Lemma popleft_while_kept bound reqs (P : Q -> Prop) :
  Forall P reqs -> Forall P (popleft_while bound reqs).
Proof.
  intros H. destruct (popleft_while_split bound reqs) as (popped & Hreqs & _).
  rewrite Hreqs in H. apply Forall_app in H. apply H.
Qed.

(** What a call leaves, when it returns. *)
Lemma acquire_shape fuel : forall N W reqs w res self' w',
  (1 <= N)%Z ->
  acquire fuel {| max_requests := N; time_window := W; requests := reqs |} w
  = Some (res, self', w') ->
  res = ReturnedNone /\ max_requests self' = N /\ time_window self' = W /\
  exists dropped kept,
    reqs = dropped ++ kept /\ requests self' = kept ++ [now w'].
Proof.
  induction fuel as [| fuel IH]; intros N W reqs w res self' w' HN Hrun;
    [discriminate |].
  rewrite acquire_unfold in Hrun. cbv zeta in Hrun.
  destruct (popleft_while_split (fst (time_time w) - W) reqs)
    as (popped & Hreqs & _).
  set (pruned := popleft_while (fst (time_time w) - W) reqs) in *.
  assert (Hrec : Some (ReturnedNone,
                       {| max_requests := N; time_window := W;
                          requests := pruned ++ [fst (time_time (snd (time_time w)))] |},
                       snd (time_time (snd (time_time w))))
                 = Some (res, self', w') ->
                 res = ReturnedNone /\ max_requests self' = N /\
                 time_window self' = W /\
                 exists dropped kept,
                   reqs = dropped ++ kept /\ requests self' = kept ++ [now w']).
  { intros [= <- <- <-]. repeat split. exists popped, pruned.
    split; [exact Hreqs | reflexivity]. }
  destruct (N <=? Z.of_nat (List.length pruned))%Z eqn:Hfull; [| exact (Hrec Hrun)].
  destruct pruned as [| oldest rest] eqn:Hpr.
  { apply Z.leb_le in Hfull. cbn in Hfull. lia. }
  destruct (Qltb 0 _); [| exact (Hrec Hrun)].
  destruct (IH _ _ _ _ _ _ _ HN Hrun) as (-> & HN' & HW' & dropped & kept & Hd & Hk).
  repeat split; try assumption.
  exists (popped ++ dropped), kept. split; [| exact Hk].
  rewrite Hreqs, Hd. apply app_assoc.
Qed.

(** X6.  With [max_requests >= 1] and a clock that does not run
    backwards, [acquire] always returns: it removes timestamps from the
    front of the deque only, appends exactly one, the time of its return,
    and leaves [max_requests] and [time_window] as they were. *)
Theorem acquire_returns self w :
  monotone w -> (1 <= max_requests self)%Z ->
  exists self' w',
    acquire (enough self) self w = Some (ReturnedNone, self', w') /\
    max_requests self' = max_requests self /\
    time_window self' = time_window self /\
    exists dropped kept,
      requests self = dropped ++ kept /\ requests self' = kept ++ [now w'].
Proof.
  intros Hmono HN.
  destruct (acquire_total self w Hmono) as (res & self' & w' & Hrun).
  destruct self as [N W reqs]. cbn [max_requests time_window requests] in *.
  destruct (acquire_shape _ _ _ _ _ _ _ _ HN Hrun) as (-> & HN' & HW' & Hshape).
  exists self', w'. split; [exact Hrun |]. split; [exact HN' |].
  split; [exact HW' | exact Hshape].
Qed.

Lemma slept_time_read w : slept_time (snd (time_time w)) == slept_time w.
Proof. unfold slept_time, time_time. cbn. ring. Qed.

Lemma slept_time_sleep d w : slept_time (time_sleep d w) == slept_time w + d.
Proof. unfold slept_time, time_sleep. cbn. ring. Qed.

Lemma acquire_sleeps_until fuel : forall N W reqs w T res self' w',
  monotone w ->
  Forall (fun r => r + W <= T) reqs ->
  acquire fuel {| max_requests := N; time_window := W; requests := reqs |} w
  = Some (res, self', w') ->
  slept_time w' == slept_time w \/
  (slept_time w <= slept_time w' /\ slept_time w' - slept_time w <= T - now w).
Proof.
  induction fuel as [| fuel IH]; intros N W reqs w T res self' w' Hmono Hall Hrun;
    [discriminate |].
  rewrite acquire_unfold in Hrun. cbv zeta in Hrun.
  destruct (time_time_monotone w Hmono) as (Hnow & Hread & Hmono1).
  pose proof (slept_time_read w) as Hs1.
  pose proof (slept_time_read (snd (time_time w))) as Hs2.
  pose proof (popleft_while_kept (fst (time_time w) - W) reqs _ Hall) as Hkept.
  set (pruned := popleft_while (fst (time_time w) - W) reqs) in *.
  assert (Hrec : Some (ReturnedNone,
                       {| max_requests := N; time_window := W;
                          requests := pruned ++ [fst (time_time (snd (time_time w)))] |},
                       snd (time_time (snd (time_time w))))
                 = Some (res, self', w') ->
                 slept_time w' == slept_time w).
  { intros [= <- <- <-]. rewrite Hs2, Hs1. reflexivity. }
  destruct (N <=? Z.of_nat (List.length pruned))%Z;
    [| left; exact (Hrec Hrun)].
  destruct pruned as [| oldest rest] eqn:Hpr.
  { injection Hrun as <- <- <-. left. exact Hs1. }
  destruct (Qltb 0 (W - (fst (time_time w) - oldest))) eqn:Hwait;
    [| left; exact (Hrec Hrun)].
  apply Qltb_lt in Hwait.
  pose proof (slept_time_sleep (W - (fst (time_time w) - oldest))
                (snd (time_time w))) as Hs3.
  inversion Hkept as [| ? ? Hold _]; subst.
  apply (IH _ _ _ _ T) in Hrun; [| exact Hmono1 | exact Hkept].
  cbn [time_sleep now] in Hrun. rewrite Hread in Hrun.
  right. destruct Hrun as [Heq | [Hle Hbound]].
  - rewrite Heq, Hs3, Hs1. split; lra.
  - rewrite Hs3, Hs1 in Hle, Hbound. split; lra.
Qed.

(** X8.  A call of [acquire] on a limiter whose timestamps all lie in
    the past, under a clock that does not run backwards, sleeps at most
    [time_window] in all, however many times it waits. *)
Theorem acquire_wait_bounded fuel self w res self' w' :
  monotone w -> 0 <= time_window self ->
  Forall (fun r => r <= now w) (requests self) ->
  acquire fuel self w = Some (res, self', w') ->
  0 <= slept_time w' - slept_time w <= time_window self.
Proof.
  intros Hmono HW Hpast Hrun. destruct self as [N W reqs].
  cbn [time_window requests] in *.
  destruct (acquire_sleeps_until fuel N W reqs w (now w + W) res self' w' Hmono)
    as [Heq | [Hle Hbound]]; [| exact Hrun | rewrite Heq; lra | lra].
  revert Hpast. apply Forall_impl. intros r Hr. lra.
Qed.

(** X9.  The cooperative limiter never gets through a wait: when the
    limit is reached and the oldest timestamp is still inside the
    window, no call of [acquire] returns, whatever the depth allowed to
    the recursion; the task is left blocked on the lock it holds and
    nothing is recorded. *)
Theorem async_acquire_never_returns_after_waiting N W reqs w oldest rest :
  popleft_while (fst (time_time w) - W) reqs = oldest :: rest ->
  (N <= Z.of_nat (List.length (oldest :: rest)))%Z ->
  fst (time_time w) - W < oldest ->
  forall fuel,
    (2 <= fuel)%nat ->
    exists self' w',
      AsyncRateLimiter.acquire fuel
        {| AsyncRateLimiter.max_requests := N; AsyncRateLimiter.time_window := W;
           AsyncRateLimiter.requests := reqs; AsyncRateLimiter.lock := false |} w
      = Some (AsyncRateLimiter.Blocked, self', w') /\
      AsyncRateLimiter.requests self' = oldest :: rest /\
      AsyncRateLimiter.lock self' = true.
Proof.
  intros Hprune Hfull Hin fuel Hfuel.
  destruct fuel as [| [| fuel]]; [lia | lia |].
  rewrite (async_acquire_blocks fuel N W reqs w oldest rest Hprune Hfull Hin).
  eexists _, _. split; [reflexivity |]. split; reflexivity.
Qed.

(** X10.  Whenever the threaded limiter gets through without waiting,
    the cooperative limiter with the same fields and a free lock does
    the same and leaves its lock free. *)
Theorem async_acquire_without_wait self w res self' w' fuel :
  AsyncRateLimiter.lock self = false ->
  acquire 1 (Limiters.threaded self) w = Some (res, self', w') ->
  AsyncRateLimiter.acquire (S fuel) self w
  = Some (Limiters.same_result res, Limiters.cooperative self', w').
Proof.
  destruct self as [N W reqs lk]. cbn [AsyncRateLimiter.lock]. intros ->.
  unfold Limiters.threaded.
  cbn [AsyncRateLimiter.max_requests AsyncRateLimiter.time_window
       AsyncRateLimiter.requests].
  rewrite acquire_unfold. cbv zeta.
  cbn [AsyncRateLimiter.acquire AsyncRateLimiter.lock].
  cbn [AsyncRateLimiter.with_lock AsyncRateLimiter.with_requests
       AsyncRateLimiter.max_requests AsyncRateLimiter.time_window
       AsyncRateLimiter.requests AsyncRateLimiter.lock].
  unfold AsyncRateLimiter.record.
  cbn [AsyncRateLimiter.with_lock AsyncRateLimiter.with_requests
       AsyncRateLimiter.max_requests AsyncRateLimiter.time_window
       AsyncRateLimiter.requests AsyncRateLimiter.lock].
  unfold time_time. cbn [fst snd now reads elapse].
  destruct (N <=? _)%Z.
  - destruct (popleft_while _ reqs) as [| oldest rest].
    + intros [= <- <- <-]. reflexivity.
    + destruct (Qltb 0 _); [discriminate |].
      intros [= <- <- <-]. reflexivity.
  - intros [= <- <- <-]. reflexivity.
Qed.

End LimiterMore.

Section LimiterMoreRuns.
Import Clock RateLimiter Waiting MoreLimiterRuns.

Lemma ticking_advancing : advancing ticking.
Proof. intros i. unfold ticking, starting. cbn. destruct i; reflexivity. Qed.

Lemma ticking_monotone : monotone ticking.
Proof. intros i. unfold ticking, starting. cbn. destruct i; discriminate. Qed.

Lemma acquire_returns_witness :
  exists self' w',
    acquire (enough two_per_second) two_per_second ticking
    = Some (ReturnedNone, self', w') /\
    requests self' = [now w'].
Proof.
  destruct (acquire_returns two_per_second ticking ticking_monotone)
    as (self' & w' & Hrun & _ & _ & dropped & kept & Hd & Hk).
  - cbn. lia.
  - exists self', w'. split; [exact Hrun |].
    destruct dropped; [| discriminate]. cbn in Hd. subst kept. exact Hk.
Defined.

Lemma sequential_limit_when_clock_advances_witness :
  exists self' w' stamps,
    acquire_logged 5 two_per_second ticking [] = Some (self', w', stamps) /\
    List.length stamps = 5%nat /\
    forall t, (Z.of_nat (List.length (in_closed_window 1.0 t stamps)) <= 2)%Z.
Proof.
  apply (sequential_limit_when_clock_advances 2 1.0 5 ticking).
  - lia.
  - exact ticking_advancing.
Defined.

Lemma acquire_wait_bounded_witness :
  exists res self' w',
    acquire (enough busy) busy at_half = Some (res, self', w') /\
    0 <= slept_time w' - slept_time at_half <= 1.0.
Proof.
  eexists _, _, _. split; [reflexivity |].
  eapply (acquire_wait_bounded (enough busy) busy at_half ReturnedNone).
  - intros i. cbn. discriminate.
  - cbn. discriminate.
  - repeat constructor. cbn. discriminate.
  - reflexivity.
Defined.

Lemma async_acquire_never_returns_after_waiting_witness :
  exists self' w',
    AsyncRateLimiter.acquire 5 (Limiters.cooperative busy) at_half
    = Some (AsyncRateLimiter.Blocked, self', w') /\
    AsyncRateLimiter.requests self' = [0.2] /\
    AsyncRateLimiter.lock self' = true.
Proof.
  apply (async_acquire_never_returns_after_waiting 1 1.0 [0.2] at_half 0.2 []).
  - reflexivity.
  - cbn. lia.
  - reflexivity.
  - lia.
Defined.

Lemma async_acquire_without_wait_witness :
  exists self' w',
    AsyncRateLimiter.acquire 3 (Limiters.cooperative two_per_second) ticking
    = Some (AsyncRateLimiter.ReturnedNone, self', w') /\
    AsyncRateLimiter.lock self' = false /\
    List.length (AsyncRateLimiter.requests self') = 1%nat.
Proof.
  eexists _, _. split.
  - eapply (async_acquire_without_wait (Limiters.cooperative two_per_second)
              ticking ReturnedNone).
    + reflexivity.
    + reflexivity.
  - split; reflexivity.
Defined.

End LimiterMoreRuns.

(** ** The global limiter and its decorator *)

Section GlobalLimiterFacts.
Import Clock RateLimiter GlobalLimiter.
Variables A E : Type.

Lemma settled_later stamps self w w' :
  settled stamps self w -> now w <= now w' -> settled stamps self w'.
Proof.
  intros ((dropped & Hst & Hdrop) & Hsp & Hlen & Hover) Hle.
  split; [| split; [exact Hsp | split; [exact Hlen |]]].
  - exists dropped. split; [exact Hst |].
    revert Hdrop. apply Forall_impl. intros d Hd. lra.
  - intros Hfull oldest rest Heq. pose proof (Hover Hfull oldest rest Heq). lra.
Qed.

(** The limiter that the next decorated call will use. *)
Lemma get_global_rate_limiter_limit p n :
  _global_rate_limiter p = None -> limit p = Some n ->
  get_global_rate_limiter p = (Some (init n 60.0), store p (init n 60.0)).
Proof.
  unfold get_global_rate_limiter, limit. intros -> Hn.
  destruct (MAX_REQUESTS_PER_MINUTE p); [| | discriminate];
    injection Hn as <-; reflexivity.
Qed.

(** One decorated call on a settled limiter. *)
Lemma with_rate_limiting_settled (func : function A E) p w l stamps :
  fst (get_global_rate_limiter p) = Some l ->
  (1 <= max_requests l)%Z -> advancing w -> settled stamps l w ->
  passes_time func ->
  exists o l' w',
    with_rate_limiting func p w = (FromFunc o, store p l', w') /\
    max_requests l' = max_requests l /\ time_window l' = time_window l /\
    advancing w' /\
    settled (stamps ++ [last (requests l') 0]) l' w'.
Proof.
  intros Hget HN Hadv Hset Hpass. unfold with_rate_limiting.
  assert (Hp1 : snd (get_global_rate_limiter p) = p
                \/ snd (get_global_rate_limiter p) = store p l).
  { unfold get_global_rate_limiter in *.
    destruct (_global_rate_limiter p); [left; reflexivity |].
    destruct (MAX_REQUESTS_PER_MINUTE p); cbn in *;
      try (injection Hget as <-; right; reflexivity). discriminate. }
  destruct (get_global_rate_limiter p) as [got p1]. cbn [fst snd] in *. subst got.
  assert (Hmono : monotone w) by (intros i; specialize (Hadv i); lra).
  destruct (acquire_total l w Hmono) as (res & l' & w1 & Hrun). rewrite Hrun.
  destruct l as [N W reqs]. cbn [max_requests time_window] in *.
  destruct (acquire_settled _ _ _ _ _ _ _ _ _ HN Hadv Hset Hrun)
    as (-> & HN' & HW' & Hadv1 & Hset1).
  destruct (Hpass w1) as [Hnow Hel].
  destruct (func w1) as [o w2]. cbn [snd] in *.
  exists o, l', w2. split.
  - destruct Hp1 as [-> | ->]; reflexivity.
  - split; [exact HN' |]. split; [exact HW' |]. split.
    + intros i. rewrite Hel. apply Hadv1.
    + apply settled_later with w1; assumption.
Qed.

Lemma call_all_settled (funcs : list (function A E)) :
  forall p w l stamps,
    fst (get_global_rate_limiter p) = Some l ->
    (1 <= max_requests l)%Z -> advancing w -> settled stamps l w ->
    Forall passes_time funcs ->
    exists results p' w' stamps' l',
      call_all funcs p w stamps = (results, p', w', stamps') /\
      Forall got_through results /\
      List.length results = List.length funcs /\
      List.length stamps' = (List.length stamps + List.length funcs)%nat /\
      max_requests l' = max_requests l /\ time_window l' = time_window l /\
      settled stamps' l' w'.
Proof.
  induction funcs as [| func rest IH]; intros p w l stamps Hget HN Hadv Hset Hall.
  - exists [], p, w, stamps, l. cbn [call_all List.length].
    split; [reflexivity |]. split; [constructor |]. split; [reflexivity |].
    split; [lia |]. split; [reflexivity |]. split; [reflexivity | exact Hset].
  - inversion Hall as [| ? ? Hpass Hrest]; subst.
    destruct (with_rate_limiting_settled func p w l stamps Hget HN Hadv Hset Hpass)
      as (o & l1 & w1 & Hcall & HN1 & HW1 & Hadv1 & Hset1).
    cbn [call_all]. rewrite Hcall. cbn [store _global_rate_limiter].
    destruct (IH (store p l1) w1 l1 (stamps ++ [last (requests l1) 0]))
      as (results & p' & w' & stamps' & l' & Hrun & Hthrough & Hlr & Hls & HN' & HW' & Hset');
      [reflexivity | lia | exact Hadv1 | exact Hset1 | exact Hrest |].
    rewrite Hrun. exists (FromFunc o :: results), p', w', stamps', l'.
    split; [reflexivity |]. split; [constructor; [exact I | exact Hthrough] |].
    cbn [List.length]. rewrite length_app in Hls. cbn [List.length] in Hls.
    split; [lia |]. split; [lia |]. split; [congruence |].
    split; [congruence | exact Hset'].
Qed.

(** X11.  In a fresh process where [MAX_REQUESTS_PER_MINUTE] is unset
    (60) or an integer [n >= 1], under a clock of which no two readings
    are equal, any sequence of calls of decorated functions that only
    let time pass gets through the one shared limiter, every function is
    run, and no window of 60 seconds, its two ends included, holds more
    than [n] of the timestamps of these calls. *)
Theorem decorated_calls_limited (funcs : list (function A E)) p w n :
  _global_rate_limiter p = None -> limit p = Some n -> (1 <= n)%Z ->
  advancing w -> Forall passes_time funcs ->
  exists results p' w' stamps,
    call_all funcs p w [] = (results, p', w', stamps) /\
    Forall got_through results /\
    List.length results = List.length funcs /\
    List.length stamps = List.length funcs /\
    forall t, (Z.of_nat (List.length (in_closed_window 60.0 t stamps)) <= n)%Z.
Proof.
  intros Hnone Hlimit Hn Hadv Hall.
  destruct (call_all_settled funcs p w (init n 60.0) [])
    as (results & p' & w' & stamps & l' & Hrun & Hthrough & Hlr & Hls & HN & HW & Hset).
  - rewrite (get_global_rate_limiter_limit p n Hnone Hlimit). reflexivity.
  - exact Hn.
  - exact Hadv.
  - apply settled_init.
  - exact Hall.
  - exists results, p', w', stamps. split; [exact Hrun |].
    split; [exact Hthrough |]. split; [exact Hlr |]. split; [exact Hls |].
    intros t. destruct Hset as (_ & Hsp & _).
    cbn [init max_requests time_window] in HN, HW. rewrite HN, HW in Hsp.
    pose proof (spaced_window (Z.to_nat n) 60.0 t stamps ltac:(lia) Hsp). lia.
Qed.

Lemma call_all_refused (funcs : list (function A E)) :
  forall p w stamps n,
    (_global_rate_limiter p = None \/ _global_rate_limiter p = Some (init n 60.0)) ->
    limit p = Some n -> (n <= 0)%Z ->
    fst (fst (fst (call_all funcs p w stamps)))
    = repeat RaisedIndexError (List.length funcs) /\
    snd (call_all funcs p w stamps) = stamps.
Proof.
  induction funcs as [| func rest IH]; intros p w stamps n Hglobal Hlimit Hn.
  - split; reflexivity.
  - assert (Hcall : with_rate_limiting func p w
                    = (RaisedIndexError, store p (init n 60.0), snd (time_time w))).
    { unfold with_rate_limiting.
      assert (Hget : exists p1,
                 get_global_rate_limiter p = (Some (init n 60.0), p1) /\
                 store p1 (init n 60.0) = store p (init n 60.0)).
      { destruct Hglobal as [Hnone | Hsome].
        - rewrite (get_global_rate_limiter_limit p n Hnone Hlimit).
          eexists. split; reflexivity.
        - unfold get_global_rate_limiter. rewrite Hsome.
          eexists. split; reflexivity. }
      destruct Hget as (p1 & -> & Hstore).
      unfold enough, init in *. cbn [requests List.length].
      rewrite acquire_unfold. cbv zeta. cbn [popleft_while List.length].
      replace (n <=? Z.of_nat 0)%Z with true by (symmetry; apply Z.leb_le; lia).
      rewrite Hstore. reflexivity. }
    cbn [call_all]. rewrite Hcall. cbn [store _global_rate_limiter].
    destruct (IH (store p (init n 60.0)) (snd (time_time w)) stamps n)
      as [Hres Hst]; [right; reflexivity | exact Hlimit | exact Hn |].
    destruct (call_all rest _ _ stamps) as [[[rs p2] w2] stamps2].
    cbn [fst snd] in *. subst. split; reflexivity.
Qed.

(** X12.  In a fresh process where [MAX_REQUESTS_PER_MINUTE] is zero or
    negative, every call of a decorated function raises [IndexError]
    from [acquire]: the function itself is never run and no timestamp is
    recorded, however long the caller waits between calls. *)
Theorem decorated_calls_refused (funcs : list (function A E)) p w n :
  _global_rate_limiter p = None -> limit p = Some n -> (n <= 0)%Z ->
  fst (fst (fst (call_all funcs p w [])))
  = repeat RaisedIndexError (List.length funcs) /\
  snd (call_all funcs p w []) = [].
Proof.
  intros Hnone Hlimit Hn. apply (call_all_refused funcs p w [] n); auto.
Qed.

End GlobalLimiterFacts.

Section DecoratedRunsFacts.
Import Clock RateLimiter GlobalLimiter DecoratedRuns MoreLimiterRuns.

Lemma quick_passes_time : passes_time quick.
Proof. intros w. unfold quick. cbn. split; [lra | reflexivity]. Qed.

Lemma failing_passes_time : passes_time failing.
Proof. intros w. unfold failing. cbn. split; [lra | reflexivity]. Qed.

Lemma decorated_calls_limited_witness :
  exists results p' w' stamps,
    call_all [quick; failing; quick] two_a_minute ticking []
    = (results, p', w', stamps) /\
    Forall got_through results /\
    List.length stamps = 3%nat /\
    forall t, (Z.of_nat (List.length (in_closed_window 60.0 t stamps)) <= 2)%Z.
Proof.
  destruct (decorated_calls_limited nat unit [quick; failing; quick] two_a_minute
              ticking 2 eq_refl eq_refl ltac:(lia) ticking_advancing)
    as (results & p' & w' & stamps & Hrun & Hthrough & _ & Hls & Hwin).
  - apply Forall_cons; [exact quick_passes_time |].
    apply Forall_cons; [exact failing_passes_time |].
    apply Forall_cons; [exact quick_passes_time | apply Forall_nil].
  - exists results, p', w', stamps.
    split; [exact Hrun |]. split; [exact Hthrough |]. split; [exact Hls | exact Hwin].
Defined.

Lemma decorated_calls_refused_witness :
  fst (fst (fst (call_all [quick; quick] none_a_minute ticking [])))
  = [RaisedIndexError; RaisedIndexError].
Proof.
  apply (decorated_calls_refused nat unit [quick; quick] none_a_minute ticking 0
           eq_refl eq_refl).
  lia.
Defined.

End DecoratedRunsFacts.

(** ** Cost calculation: sign, growth, shadowed entries *)

Section CostMoreFacts.
Import CostTracker CostMore.
Open Scope string_scope.

Lemma MODEL_PRICING_nonneg name pr :
  In (name, pr) MODEL_PRICING -> 0 <= prompt pr /\ 0 <= completion pr.
Proof.
  unfold MODEL_PRICING. cbn [In]. intros H.
  repeat (destruct H as [[= <- <-] | H]; [cbn; split; discriminate |]).
  contradiction.
Qed.

Lemma get_listed {V} (d : list (string * V)) key v :
  get d key = Some v -> In (key, v) d.
Proof.
  induction d as [| [k v0] d IH]; cbn; [discriminate |].
  destruct (String.eqb k key) eqn:Hk.
  - apply String.eqb_eq in Hk. intros [= ->]. left. congruence.
  - intros H. right. apply IH. exact H.
Qed.

Lemma partial_match_listed items model pr :
  partial_match items model = Some pr ->
  exists name, In (name, pr) items /\ occurs_in name model.
Proof.
  induction items as [| [n0 p0] items IH]; cbn; [discriminate |].
  destruct (contains model n0) eqn:Hc.
  - intros [= ->]. exists n0. split; [left; reflexivity |].
    apply contains_occurs. exact Hc.
  - intros H. destruct (IH H) as (name & Hin & Hocc).
    exists name. split; [right; exact Hin | exact Hocc].
Qed.

(** The price entry depends on the model name alone. *)
Lemma calculate_cost_entry (p c : Z) m :
  (exists name pr,
     In (name, pr) MODEL_PRICING /\
     forall p' c', calculate_cost p' c' m = Returns (cost_with pr p' c')) \/
  (forall p' c', calculate_cost p' c' m = Raises ValueError).
Proof.
  unfold calculate_cost.
  destruct (get MODEL_PRICING m) as [pr |] eqn:Hget.
  - left. exists m, pr. split; [apply get_listed; exact Hget | reflexivity].
  - destruct (partial_match MODEL_PRICING m) as [pr |] eqn:Hpart.
    + left. destruct (partial_match_listed _ _ _ Hpart) as (name & Hin & _).
      exists name, pr. split; [exact Hin | reflexivity].
    + right. reflexivity.
Qed.

Lemma cost_with_monotone pr (p c p' c' : Z) :
  0 <= prompt pr -> 0 <= completion pr ->
  (p <= p')%Z -> (c <= c')%Z ->
  cost_with pr p c <= cost_with pr p' c'.
Proof.
  intros Ha Hb Hp Hc. unfold cost_with.
  rewrite Zle_Qle in Hp, Hc.
  apply Qplus_le_compat; apply Qmult_le_compat_r; try assumption;
    unfold Qdiv; apply Qmult_le_compat_r; try assumption; discriminate.
Qed.

Lemma calculate_cost_nonneg (p c : Z) m x :
  calculate_cost p c m = Returns x -> (0 <= p)%Z -> (0 <= c)%Z -> 0 <= x.
Proof.
  intros Hx Hp Hc.
  destruct (calculate_cost_entry p c m) as [(name & pr & Hin & Hall) | Hnone];
    [| rewrite Hnone in Hx; discriminate].
  destruct (MODEL_PRICING_nonneg _ _ Hin) as [Ha Hb].
  rewrite Hall in Hx. injection Hx as <-.
  assert (H0 : cost_with pr 0 0 == 0)
    by (unfold cost_with, Qdiv; change (inject_Z 0) with 0; ring).
  rewrite <- H0. apply cost_with_monotone; assumption.
Qed.

(** X13.  The cost of a call is never negative when its token counts
    are not, and it grows with them: more prompt or completion tokens on
    the same model never cost less. *)
Theorem cost_monotone (p c p' c' : Z) m x :
  (p <= p')%Z -> (c <= c')%Z ->
  calculate_cost p c m = Returns x ->
  exists x',
    calculate_cost p' c' m = Returns x' /\ x <= x' /\
    ((0 <= p)%Z -> (0 <= c)%Z -> 0 <= x).
Proof.
  intros Hp Hc Hx.
  destruct (calculate_cost_entry p c m) as [(name & pr & Hin & Hall) | Hnone];
    [| rewrite Hnone in Hx; discriminate].
  destruct (MODEL_PRICING_nonneg _ _ Hin) as [Ha Hb].
  rewrite Hall in Hx. injection Hx as <-.
  exists (cost_with pr p' c'). split; [apply Hall |].
  split; [apply cost_with_monotone; assumption |].
  intros H0p H0c.
  assert (H0 : cost_with pr 0 0 == 0)
    by (unfold cost_with, Qdiv; change (inject_Z 0) with 0; ring).
  rewrite <- H0. apply cost_with_monotone; assumption.
Qed.

(** X15.  [estimate_cost] is an upper bound: a call of the same prompt
    whose completion has at most [max_tokens] tokens costs at most the
    estimate, whatever the tokenizer counts. *)
Theorem estimate_is_upper_bound count_tokens prompt m (max_tokens c : Z) e :
  (c <= max_tokens)%Z ->
  estimate_cost count_tokens prompt m max_tokens = Returns e ->
  exists x,
    calculate_cost (count_tokens prompt m) c m = Returns x /\ x <= e.
Proof.
  unfold estimate_cost. intros Hc He.
  destruct (calculate_cost_entry 0 0 m) as [(name & pr & Hin & Hall) | Hnone];
    [| rewrite Hnone in He; discriminate].
  destruct (MODEL_PRICING_nonneg _ _ Hin) as [Ha Hb].
  rewrite Hall in He. injection He as <-.
  exists (cost_with pr (count_tokens prompt m) c). split; [apply Hall |].
  apply cost_with_monotone; try assumption. lia.
Qed.

Lemma append_assoc (a b c : string) : (a ++ b) ++ c = a ++ b ++ c.
Proof. induction a as [| x a IH]; cbn; [reflexivity | rewrite IH; reflexivity]. Qed.

Lemma occurs_in_trans a b m : occurs_in a b -> occurs_in b m -> occurs_in a m.
Proof.
  intros (x & y & ->) (u & v & ->). exists (u ++ x), (y ++ v).
  rewrite !append_assoc. reflexivity.
Qed.

(** X16.  A model name that is not itself an entry of the price table is
    priced by the first entry whose name it contains, so the entries
    ["gpt-4-32k"], ["gpt-4-turbo"] and ["gpt-4-turbo-preview"] are never
    used for it: every such name that contains ["gpt-4"], the dated
    names of [gpt-4-turbo] included, is billed at the price of
    ["gpt-4"]; and every such name that contains ["gpt-3.5-turbo"] but
    not ["gpt-4"], those of [gpt-3.5-turbo-16k] included, at the price
    of ["gpt-3.5-turbo"]. *)
Theorem longer_names_are_shadowed (p c : Z) m :
  (forall pr, ~ In (m, pr) MODEL_PRICING) ->
  (occurs_in "gpt-4" m ->
   calculate_cost p c m
   = Returns (cost_with {| prompt := 0.03; completion := 0.06 |} p c)) /\
  (occurs_in "gpt-4-turbo" m ->
   calculate_cost p c m
   = Returns (cost_with {| prompt := 0.03; completion := 0.06 |} p c)) /\
  (~ occurs_in "gpt-4" m -> occurs_in "gpt-3.5-turbo" m ->
   calculate_cost p c m
   = Returns (cost_with {| prompt := 0.0005; completion := 0.0015 |} p c)) /\
  (~ occurs_in "gpt-4" m -> occurs_in "gpt-3.5-turbo-16k" m ->
   calculate_cost p c m
   = Returns (cost_with {| prompt := 0.0005; completion := 0.0015 |} p c)).
Proof.
  intros Hno. apply get_None in Hno.
  assert (H4 : occurs_in "gpt-4" m ->
               calculate_cost p c m
               = Returns (cost_with {| prompt := 0.03; completion := 0.06 |} p c)).
  { intros Hocc. unfold calculate_cost. rewrite Hno.
    rewrite (partial_match_first MODEL_PRICING m [] "gpt-4"
               {| prompt := 0.03; completion := 0.06 |} (tl MODEL_PRICING)
               eq_refl Hocc); [reflexivity |].
    intros name' pr' []. }
  assert (H35 : ~ occurs_in "gpt-4" m -> occurs_in "gpt-3.5-turbo" m ->
                calculate_cost p c m
                = Returns (cost_with {| prompt := 0.0005; completion := 0.0015 |} p c)).
  { intros Hnot Hocc. unfold calculate_cost. rewrite Hno.
    rewrite (partial_match_first MODEL_PRICING m (firstn 4 MODEL_PRICING)
               "gpt-3.5-turbo" {| prompt := 0.0005; completion := 0.0015 |}
               (skipn 5 MODEL_PRICING) eq_refl Hocc); [reflexivity |].
    intros name' pr' Hin Hocc'. apply Hnot.
    cbn [firstn MODEL_PRICING In] in Hin.
    repeat (destruct Hin as [[= <- <-] | Hin];
            [apply occurs_in_trans with (2 := Hocc');
             first [ exists "", ""; reflexivity
                   | exists "", "-32k"; reflexivity
                   | exists "", "-turbo"; reflexivity
                   | exists "", "-turbo-preview"; reflexivity ] |]).
    contradiction. }
  split; [exact H4 |]. split; [| split; [exact H35 |]].
  - intros Hocc. apply H4. apply occurs_in_trans with (2 := Hocc).
    exists "", "-turbo". reflexivity.
  - intros Hnot Hocc. apply H35; [exact Hnot |].
    apply occurs_in_trans with (2 := Hocc). exists "", "-16k". reflexivity.
Qed.

(** ** Cost tracker: what a call can and cannot do *)

(** X17.  A call of [track_tokens] never removes or alters a record: it
    appends at most one.  When it raises [ValueError] (no price for the
    model) the tracker is left exactly as it was.  With token counts
    that are not negative the total cost of the session never goes
    down. *)
Theorem track_tokens_only_appends env self r :
  (exists added,
     calls (snd (track_tokens env self r)) = (calls self ++ added)%list /\
     (List.length added <= 1)%nat) /\
  (fst (track_tokens env self r) = Raises ValueError ->
   snd (track_tokens env self r) = self) /\
  ((0 <= req_prompt_tokens r)%Z -> (0 <= req_completion_tokens r)%Z ->
   get_total_cost self <= get_total_cost (snd (track_tokens env self r))).
Proof.
  pose proof (track_tokens_cases env self r) as H.
  destruct (calculate_cost (req_prompt_tokens r) (req_completion_tokens r)
              (req_model r)) as [x |] eqn:Hcost.
  - cbv zeta in H.
    assert (Hx : (0 <= req_prompt_tokens r)%Z -> (0 <= req_completion_tokens r)%Z ->
                 0 <= x)
      by (apply calculate_cost_nonneg with (1 := Hcost)).
    assert (Hsnd : calls (snd (track_tokens env self r))
                   = (calls self ++ [call_data r x])%list /\
                   get_total_cost (snd (track_tokens env self r))
                   = get_total_cost self + x /\
                   fst (track_tokens env self r) <> Raises ValueError).
    { assert (Hfold : fold_left (fun acc c => acc + cost c)
                        (calls self ++ [call_data r x]) 0
                      = get_total_cost self + x) by apply fold_left_app.
      destruct (Qle_bool _ _);
        [| destruct (Qle_bool _ _)];
        rewrite H; unfold get_total_cost; cbn [fst snd print append_call calls];
        (split; [reflexivity |]); (split; [exact Hfold | discriminate]). }
    destruct Hsnd as (Hcalls & Htotal & Hne).
    split; [exists [call_data r x]; split; [exact Hcalls | cbn; lia] |].
    split; [intros Hv; contradiction |].
    intros Hp Hc. rewrite Htotal. specialize (Hx Hp Hc). lra.
  - rewrite H. cbn [fst snd].
    split; [exists []; rewrite app_nil_r; split; [reflexivity | cbn; lia] |].
    split; [reflexivity |]. intros _ _. apply Qle_refl.
Qed.

Lemma track_tokens_over_limit env self r :
  getenv (COST_MAX_THRESHOLD env) 50.0 <= get_total_cost self ->
  billable r ->
  fst (track_tokens env self r) = Raises CostLimitExceeded /\
  List.length (calls (snd (track_tokens env self r))) = S (List.length (calls self)) /\
  get_total_cost self <= get_total_cost (snd (track_tokens env self r)).
Proof.
  intros Hover (Hp & Hc & x & Hcost).
  pose proof (track_tokens_cases env self r) as H. rewrite Hcost in H. cbv zeta in H.
  assert (Hx : 0 <= x) by (apply calculate_cost_nonneg with (1 := Hcost); assumption).
  assert (Hle : Qle_bool (getenv (COST_MAX_THRESHOLD env) 50.0)
                  (get_total_cost self + x) = true)
    by (apply Qle_bool_iff; lra).
  rewrite Hle in H. rewrite H. cbn [fst snd append_call calls].
  split; [reflexivity |]. split.
  - rewrite length_app. cbn. lia.
  - change (get_total_cost self
            <= get_total_cost (append_call self (call_data r x))).
    rewrite get_total_cost_append. cbn [call_data cost]. lra.
Qed.

(** X18.  Once the total cost of the session has reached the hard
    threshold, every later call for a priced model with token counts
    that are not negative raises [CostLimitExceeded], and every one of
    them is recorded all the same. *)
Theorem over_limit_calls_still_recorded env rs : forall self,
  getenv (COST_MAX_THRESHOLD env) 50.0 <= get_total_cost self ->
  Forall billable rs ->
  fst (track_all env self rs)
  = repeat (Raises CostLimitExceeded) (List.length rs) /\
  List.length (calls (snd (track_all env self rs)))
  = (List.length (calls self) + List.length rs)%nat.
Proof.
  induction rs as [| r rs IH]; intros self Hover Hall.
  - cbn. split; [reflexivity | lia].
  - inversion Hall as [| ? ? Hr Hrs]; subst.
    destruct (track_tokens_over_limit env self r Hover Hr) as (Ho & Hlen & Hle).
    cbn [track_all]. destruct (track_tokens env self r) as [o self1].
    cbn [fst snd] in *.
    destruct (IH self1 ltac:(lra) Hrs) as [Hos Hcalls].
    destruct (track_all env self1 rs) as [os self2]. cbn [fst snd] in *.
    subst. split; [reflexivity |]. rewrite Hcalls, Hlen. cbn [List.length]. lia.
Qed.

(** ** Session report: the breakdown by model *)

Lemma bump_all_sums cs : forall st,
  exists st',
    bump_all (Some st) cs = Some st' /\
    s_calls st' = (s_calls st + Z.of_nat (List.length cs))%Z /\
    s_tokens st' = (s_tokens st + tokens_of cs)%Z /\
    s_cost st' == s_cost st + total (map cost cs).
Proof.
  induction cs as [| c cs IH]; intros st; cbn [bump_all fold_left].
  - exists st. cbn. repeat split; try lia. lra.
  - destruct (IH (bump (Some st) c)) as (st' & Hb & Hc & Ht & Hq).
    exists st'. split; [exact Hb |]. cbn [bump s_calls s_tokens s_cost] in *.
    cbn [List.length tokens_of fold_right map total].
    fold (tokens_of cs) (total (map cost cs)).
    split; [lia |]. split; [lia |]. rewrite Hq. lra.
Qed.


Lemma keys_add_to_model by_model c :
  map fst (add_to_model by_model c)
  = if existsb (String.eqb (model c)) (map fst by_model) then map fst by_model
    else (map fst by_model ++ [model c])%list.
Proof.
  induction by_model as [| [k st] by_model IH]; cbn [add_to_model map fst existsb].
  - reflexivity.
  - rewrite (String.eqb_sym (model c) k).
    destruct (String.eqb k (model c)); cbn [orb map fst]; [reflexivity |].
    rewrite IH. destruct (existsb _ _); reflexivity.
Qed.

Lemma keys_group cs : forall by_model,
  map fst (fold_left add_to_model cs by_model)
  = first_uses (map fst by_model) (map model cs).
Proof.
  induction cs as [| c cs IH]; intros by_model; cbn [fold_left map first_uses].
  - reflexivity.
  - rewrite IH, keys_add_to_model. destruct (existsb _ _); reflexivity.
Qed.

Lemma first_uses_spec names : forall seen,
  NoDup seen ->
  NoDup (first_uses seen names) /\
  forall n, In n (first_uses seen names) <-> In n seen \/ In n names.
Proof.
  induction names as [| a names IH]; intros seen Hnd; cbn [first_uses].
  - split; [exact Hnd |]. intros n. cbn. tauto.
  - destruct (existsb (String.eqb a) seen) eqn:Hex.
    + destruct (IH seen Hnd) as [Hn Hin]. split; [exact Hn |].
      intros n. rewrite Hin. cbn [In].
      apply existsb_exists in Hex. destruct Hex as (x & Hx & Heq).
      apply String.eqb_eq in Heq. subst x.
      split; [tauto |]. intros [H | [<- | H]]; tauto.
    + assert (Hnot : ~ In a seen).
      { intros Hin. apply not_true_iff_false in Hex. apply Hex.
        apply existsb_exists. exists a. split; [exact Hin | apply String.eqb_refl]. }
      destruct (IH (seen ++ [a])%list) as [Hn Hin].
      * apply NoDup_app; [exact Hnd | repeat constructor; intros [] |].
        intros x Hx [<- | []]. contradiction.
      * split; [exact Hn |]. intros n. rewrite Hin, in_app_iff. cbn [In]. tauto.
Qed.

(** X20.  The keys of [by_model] are the models of the calls of the
    session, each once, in the order in which the models were first
    used. *)
Theorem by_model_keys self :
  map fst (breakdown (get_session_report self))
  = first_uses [] (map model (calls self)) /\
  NoDup (map fst (breakdown (get_session_report self))) /\
  forall m,
    In m (map fst (breakdown (get_session_report self)))
    <-> exists c, In c (calls self) /\ model c = m.
Proof.
  assert (Hkeys : map fst (breakdown (get_session_report self))
                  = first_uses [] (map model (calls self))).
  { unfold get_session_report, breakdown.
    destruct (calls self) as [| c0 cs0]; [reflexivity |].
    cbn [r_by_model]. unfold group_by_model. apply (keys_group (c0 :: cs0) []). }
  destruct (first_uses_spec (map model (calls self)) [] (NoDup_nil _)) as [Hnd Hin].
  split; [exact Hkeys |]. rewrite Hkeys. split; [exact Hnd |].
  intros m. rewrite Hin, in_map_iff. cbn [In]. split.
  - intros [[] | (c & Hc & Hi)]. exists c. split; assumption.
  - intros (c & Hi & Hc). right. exists c. split; assumption.
Qed.

End CostMoreFacts.

(** ** The global tracker and its decorator *)

Section GlobalTrackerFacts.
Import CostTracker CostMore GlobalTracker.
Open Scope string_scope.
Variable E : Type.


End GlobalTrackerFacts.

Section SummaryFacts.
Import CostTracker CostMore GlobalTracker.
Open Scope string_scope.

Lemma first_uses_length names : forall seen,
  (List.length seen <= List.length (first_uses seen names))%nat.
Proof.
  induction names as [| n names IH]; intros seen; cbn [first_uses]; [lia |].
  destruct (existsb _ _); [apply IH |].
  pose proof (IH (seen ++ [n])%list) as H. rewrite length_app in H. cbn in H. lia.
Qed.

Lemma model_lines_length by_model :
  List.length (flat_map model_lines by_model) = (4 * List.length by_model)%nat.
Proof.
  induction by_model as [| e by_model IH]; cbn [flat_map List.length]; [lia |].
  rewrite length_app, IH. cbn. lia.
Qed.

(** X22.  [print_summary] on a tracker without calls prints the seven
    heading lines and then raises [KeyError], because the report of an
    empty session has no [by_model]; on a tracker with calls it returns,
    having printed the heading, one title and four lines for each
    distinct model, and a closing rule. *)
Theorem print_summary_needs_calls self :
  (calls self = [] ->
   fst (print_summary self) = RaisedKeyError /\
   List.length (snd (print_summary self)) = 7%nat) /\
  (calls self <> [] ->
   fst (print_summary self) = Printed /\
   List.length (snd (print_summary self))
   = (9 + 4 * List.length (first_uses [] (map model (calls self))))%nat).
Proof.
  unfold print_summary, get_session_report. split.
  - intros ->. cbn. split; reflexivity.
  - intros Hne. destruct (calls self) as [| c cs] eqn:Hcalls; [contradiction |].
    cbn [r_by_model fst snd]. split; [reflexivity |].
    pose proof (keys_group (c :: cs) []) as Hkeys. cbn [map] in Hkeys.
    fold (group_by_model (c :: cs)) in Hkeys.
    assert (Hlen : List.length (group_by_model (c :: cs))
                   = List.length (first_uses [] (model c :: map model cs))).
    { rewrite <- Hkeys. symmetry. apply length_map. }
    assert (Hpos : (1 <= List.length (group_by_model (c :: cs)))%nat).
    { rewrite Hlen. cbn [first_uses existsb].
      pose proof (first_uses_length (map model cs) ([] ++ [model c])%list) as H.
      cbn in H. exact H. }
    cbn [map]. rewrite <- Hlen.
    destruct (group_by_model (c :: cs)) as [| e by_model] eqn:Hg;
      [cbn in Hpos; lia |].
    rewrite !length_app. cbn [List.length].
    rewrite (model_lines_length (e :: by_model)). cbn [List.length]. lia.
Qed.

End SummaryFacts.

(** ** Response validation and error messages *)

Section HelperFacts.
Import CostTracker ApiHelpers.
Open Scope string_scope.

Lemma has_field_names r field : has_field r field = true <-> In field (names r).
Proof.
  assert (H : forall l, existsb (String.eqb field) l = true <-> In field l).
  { intros l. rewrite existsb_exists. split.
    - intros (x & Hx & Heq). apply String.eqb_eq in Heq. subst x. exact Hx.
    - intros Hin. exists field. split; [exact Hin | apply String.eqb_refl]. }
  destruct r; cbn [has_field names]; apply H.
Qed.

(** X23.  [validate_response] returns [True] exactly when the response
    has every required field; otherwise it raises [ValueError] for the
    first required field, in the order given, that the response lacks.
    Without a list of required fields it returns [True]. *)
Theorem validate_response_first_missing r fields :
  validate_response r None = ReturnsTrue /\
  (validate_response r (Some fields) = ReturnsTrue
   <-> forall f, In f fields -> In f (names r)) /\
  (forall f,
     validate_response r (Some fields) = RaisesValueError f
     <-> exists before after,
           fields = (before ++ f :: after)%list /\
           (forall g, In g before -> In g (names r)) /\
           ~ In f (names r)).
Proof.
  split; [reflexivity |]. cbn [validate_response].
  induction fields as [| g fields (IHt & IHf)]; cbn [check_fields].
  - split.
    + split; [intros _ f [] | reflexivity].
    + intros f. split; [discriminate |].
      intros (before & after & Heq & _). destruct before; discriminate.
  - destruct (has_field r g) eqn:Hg.
    + apply has_field_names in Hg. split.
      * rewrite IHt. split.
        -- intros H f [<- | Hin]; [exact Hg | apply H; exact Hin].
        -- intros H f Hin. apply H. right. exact Hin.
      * intros f. rewrite IHf. split.
        -- intros (before & after & -> & Hb & Hf).
           exists (g :: before), after. split; [reflexivity |].
           split; [| exact Hf]. intros h [<- | Hin]; [exact Hg | apply Hb; exact Hin].
        -- intros (before & after & Heq & Hb & Hf).
           destruct before as [| b before].
           ++ cbn in Heq. injection Heq as <- _. contradiction.
           ++ cbn in Heq. injection Heq as <- ->.
              exists before, after. split; [reflexivity |].
              split; [| exact Hf]. intros h Hin. apply Hb. right. exact Hin.
    + assert (Hnot : ~ In g (names r)).
      { rewrite <- has_field_names, Hg. discriminate. }
      split.
      * split; [discriminate |]. intros H. exfalso. apply Hnot, H. left. reflexivity.
      * intros f. split.
        -- intros [= <-]. exists [], fields. split; [reflexivity |].
           split; [intros h [] | exact Hnot].
        -- intros (before & after & Heq & Hb & Hf).
           destruct before as [| b before].
           ++ cbn in Heq. injection Heq as <- _. reflexivity.
           ++ cbn in Heq. injection Heq as <- _. exfalso. apply Hnot, Hb.
              left. reflexivity.
Qed.

Lemma lower_append a b : lower (a ++ b) = lower a ++ lower b.
Proof. induction a as [| x a IH]; cbn; [reflexivity | rewrite IH; reflexivity]. Qed.

Lemma occurs_in_lower word text :
  occurs_in word text -> occurs_in (lower word) (lower text).
Proof.
  intros (before & after & ->). exists (lower before), (lower after).
  rewrite !lower_append. reflexivity.
Qed.

Lemma contains_not text word :
  ~ occurs_in word text -> contains text word = false.
Proof. apply contains_false. Qed.

(** X24.  [handle_api_error] always gives a message, chosen by the
    first of these that holds, letter case apart except for
    [invalid_api_key]: the text mentions [quota]; it contains
    [invalid_api_key] or mentions [authentication]; it mentions
    [rate_limit]; [timeout]; [model].  With none of them the message is
    ["API error: "] followed by the text.  The tests for
    [insufficient_quota] and [model_not_found] never decide. *)
Theorem handle_api_error_precedence msg :
  (mentions "quota" msg -> handle_api_error msg = Some QUOTA) /\
  (~ mentions "quota" msg ->
   occurs_in "invalid_api_key" msg \/ mentions "authentication" msg ->
   handle_api_error msg = Some INVALID_KEY) /\
  (~ mentions "quota" msg -> ~ occurs_in "invalid_api_key" msg ->
   ~ mentions "authentication" msg -> mentions "rate_limit" msg ->
   handle_api_error msg = Some RATE_LIMIT) /\
  (~ mentions "quota" msg -> ~ occurs_in "invalid_api_key" msg ->
   ~ mentions "authentication" msg -> ~ mentions "rate_limit" msg ->
   mentions "timeout" msg ->
   handle_api_error msg = Some TIMEOUT) /\
  (~ mentions "quota" msg -> ~ occurs_in "invalid_api_key" msg ->
   ~ mentions "authentication" msg -> ~ mentions "rate_limit" msg ->
   ~ mentions "timeout" msg -> mentions "model" msg ->
   handle_api_error msg = Some MODEL_NOT_FOUND) /\
  (~ mentions "quota" msg -> ~ occurs_in "invalid_api_key" msg ->
   ~ mentions "authentication" msg -> ~ mentions "rate_limit" msg ->
   ~ mentions "timeout" msg -> ~ mentions "model" msg ->
   handle_api_error msg = Some ("API error: " ++ msg)).
Proof.
  unfold mentions, handle_api_error.
  assert (Hq : ~ occurs_in "quota" (lower msg) ->
               contains msg "insufficient_quota" = false).
  { intros Hno. apply contains_not. intros Hocc. apply Hno.
    apply occurs_in_lower in Hocc. apply occurs_in_trans with (2 := Hocc).
    exists "insufficient_", "". reflexivity. }
  assert (Hm : ~ occurs_in "model" (lower msg) ->
               contains msg "model_not_found" = false).
  { intros Hno. apply contains_not. intros Hocc. apply Hno.
    apply occurs_in_lower in Hocc. apply occurs_in_trans with (2 := Hocc).
    exists "", "_not_found". reflexivity. }
  split; [| split; [| split; [| split; [| split]]]].
  - intros H. apply contains_occurs in H. rewrite H, orb_true_r. reflexivity.
  - intros Hnq Hauth. rewrite (Hq Hnq), (contains_not _ _ Hnq). cbn [orb].
    destruct Hauth as [H | H]; apply contains_occurs in H; rewrite H;
      [| rewrite orb_true_r]; reflexivity.
  - intros Hnq Hnk Hna Hr. rewrite (Hq Hnq), !(contains_not _ _ Hnq),
      (contains_not _ _ Hnk), (contains_not _ _ Hna). cbn [orb].
    apply contains_occurs in Hr. rewrite Hr. reflexivity.
  - intros Hnq Hnk Hna Hnr Ht. rewrite (Hq Hnq), !(contains_not _ _ Hnq),
      (contains_not _ _ Hnk), (contains_not _ _ Hna), (contains_not _ _ Hnr).
    cbn [orb]. apply contains_occurs in Ht. rewrite Ht. reflexivity.
  - intros Hnq Hnk Hna Hnr Hnt Hmo. rewrite (Hq Hnq), !(contains_not _ _ Hnq),
      (contains_not _ _ Hnk), (contains_not _ _ Hna), (contains_not _ _ Hnr),
      (contains_not _ _ Hnt).
    cbn [orb]. apply contains_occurs in Hmo. rewrite Hmo, orb_true_r. reflexivity.
  - intros Hnq Hnk Hna Hnr Hnt Hnm. rewrite (Hq Hnq), (Hm Hnm),
      !(contains_not _ _ Hnq), (contains_not _ _ Hnk), (contains_not _ _ Hna),
      (contains_not _ _ Hnr), (contains_not _ _ Hnt), (contains_not _ _ Hnm).
    reflexivity.
Qed.

End HelperFacts.

Section MoreWitnesses.
Import CostTracker CostMore GlobalTracker ApiHelpers.
Open Scope string_scope.

Lemma cost_monotone_witness :
  exists x x',
    calculate_cost 100 200 "gpt-4" = Returns x /\
    calculate_cost 150 200 "gpt-4" = Returns x' /\
    x <= x' /\ 0 <= x.
Proof.
  destruct (cost_monotone 100 200 150 200 "gpt-4" _ ltac:(lia) ltac:(lia) eq_refl)
    as (x' & Hx' & Hle & Hnn).
  eexists _, x'. split; [reflexivity |]. split; [exact Hx' |].
  split; [exact Hle | apply Hnn; lia].
Defined.

Lemma estimate_is_upper_bound_witness :
  exists e x,
    estimate_cost (fun _ _ => 12%Z) "Say hello" "gpt-4" 1000 = Returns e /\
    calculate_cost 12 250 "gpt-4" = Returns x /\ x <= e.
Proof.
  destruct (estimate_is_upper_bound (fun _ _ => 12%Z) "Say hello" "gpt-4" 1000 250 _
              ltac:(lia) eq_refl) as (x & Hx & Hle).
  eexists _, x. split; [reflexivity |]. split; [exact Hx | exact Hle].
Defined.

Lemma longer_names_are_shadowed_witness :
  calculate_cost 1000 0 "gpt-4-turbo-2024-04-09"
  = Returns (cost_with {| prompt := 0.03; completion := 0.06 |} 1000 0) /\
  calculate_cost 1000 0 "gpt-3.5-turbo-16k-0613"
  = Returns (cost_with {| prompt := 0.0005; completion := 0.0015 |} 1000 0).
Proof.
  split.
  - destruct (longer_names_are_shadowed 1000 0 "gpt-4-turbo-2024-04-09")
      as (_ & Hturbo & _).
    + apply get_None. reflexivity.
    + apply Hturbo. exists "", "-2024-04-09". reflexivity.
  - destruct (longer_names_are_shadowed 1000 0 "gpt-3.5-turbo-16k-0613")
      as (_ & _ & _ & H16k).
    + apply get_None. reflexivity.
    + apply H16k.
      * apply contains_false. reflexivity.
      * exists "", "-0613". reflexivity.
Defined.

Lemma track_tokens_only_appends_witness :
  snd (track_tokens CostRuns.unset CostRuns.fresh
         {| at_time := "2026-02-10T09:00:05"; req_prompt_tokens := 10;
            req_completion_tokens := 10; req_model := "claude-3";
            req_metadata := None |})
  = CostRuns.fresh.
Proof.
  destruct (track_tokens_only_appends CostRuns.unset CostRuns.fresh
              {| at_time := "2026-02-10T09:00:05"; req_prompt_tokens := 10;
                 req_completion_tokens := 10; req_model := "claude-3";
                 req_metadata := None |}) as (_ & Hsame & _).
  apply Hsame. reflexivity.
Defined.

Lemma first_call_billable : billable CostRuns.first_call.
Proof.
  split; [cbn; lia |]. split; [cbn; lia |]. eexists. reflexivity.
Qed.

Lemma second_call_billable : billable CostRuns.second_call.
Proof.
  split; [cbn; lia |]. split; [cbn; lia |]. eexists. reflexivity.
Qed.

Lemma over_limit_calls_still_recorded_witness :
  fst (track_all CostRuns.unset TrackerRuns.spent
         [CostRuns.first_call; CostRuns.second_call])
  = [Raises CostLimitExceeded; Raises CostLimitExceeded] /\
  List.length (calls (snd (track_all CostRuns.unset TrackerRuns.spent
                             [CostRuns.first_call; CostRuns.second_call])))
  = 3%nat.
Proof.
  apply (over_limit_calls_still_recorded CostRuns.unset
           [CostRuns.first_call; CostRuns.second_call] TrackerRuns.spent).
  - cbn. unfold Qle. cbn. lia.
  - apply Forall_cons; [exact first_call_billable |].
    apply Forall_cons; [exact second_call_billable | apply Forall_nil].
Defined.



Lemma print_summary_needs_calls_witness :
  fst (print_summary CostRuns.fresh) = RaisedKeyError /\
  fst (print_summary TrackerRuns.mixed) = Printed /\
  List.length (snd (print_summary TrackerRuns.mixed)) = 17%nat.
Proof.
  destruct (print_summary_needs_calls CostRuns.fresh) as [Hempty _].
  destruct (print_summary_needs_calls TrackerRuns.mixed) as [_ Hsome].
  split; [apply Hempty; reflexivity |].
  destruct Hsome as [Hp Hl]; [discriminate |].
  split; [exact Hp | exact Hl].
Defined.

Lemma validate_response_first_missing_witness :
  validate_response HelperRuns.chat_completion (Some ["choices"; "usage"]) = ReturnsTrue /\
  validate_response HelperRuns.chat_completion (Some ["choices"; "model"; "created"])
  = RaisesValueError "model".
Proof.
  split.
  - destruct (validate_response_first_missing HelperRuns.chat_completion
                ["choices"; "usage"]) as (_ & Hall & _).
    apply Hall. intros f [<- | [<- | []]]; cbn; tauto.
  - destruct (validate_response_first_missing HelperRuns.chat_completion
                ["choices"; "model"; "created"]) as (_ & _ & Hfirst).
    apply Hfirst. exists ["choices"], ["created"]. split; [reflexivity |]. split.
    + intros g [<- | []]. cbn. tauto.
    + cbn. intros [H | [H | [H | []]]]; discriminate.
Defined.

Lemma handle_api_error_precedence_witness :
  handle_api_error "Rate_limit hit: you exceeded your current Quota" = Some QUOTA /\
  handle_api_error "The model produced invalid JSON" = Some MODEL_NOT_FOUND /\
  handle_api_error "Connection reset by peer"
  = Some "API error: Connection reset by peer".
Proof.
  split; [| split].
  - destruct (handle_api_error_precedence
                "Rate_limit hit: you exceeded your current Quota") as (Hq & _).
    apply Hq. apply contains_occurs. reflexivity.
  - destruct (handle_api_error_precedence "The model produced invalid JSON")
      as (_ & _ & _ & _ & Hm & _).
    apply Hm; try (apply contains_false; reflexivity).
    apply contains_occurs. reflexivity.
  - destruct (handle_api_error_precedence "Connection reset by peer")
      as (_ & _ & _ & _ & _ & Hother).
    apply Hother; apply contains_false; reflexivity.
Defined.

End MoreWitnesses.
